(** * The entity runtime of the cat-herding game: frame loop, collisions, game state

    A shallow embedding of the classes of the repository:

    - [GameState], the store with the cats-returned-in-a-row streak, and the
      older copy of it under [src/game/store.ts] (module [GameStore]);
    - [Game], the world: [addEntity], [update], [isGameOver],
      [detectCollisions], [initEntities] and the keyup listener that [update]
      registers while the game is over;
    - [PickupComponent] and [AnimatedSpriteComponent] (modules [Pickup] and
      [AnimatedSprite]).

    JavaScript numbers are modelled as [Z].  The lives, the streak, the
    entity counter and the identifiers are integer counters, and doubles
    are exact on integers up to 2^53.  The score and the amounts added to
    it are any numbers in the code: what is stated about them is either
    about their order, which rounding keeps, or is stated for whole values
    within 2^53.  [Entity], [HitboxComponent] and [getHitboxFrom] are not part
    of the sources at hand; their methods are the fields of the class
    [Externals], and the theorems about the world hold for all of them, or
    for all of them that follow a convention the theorem names.

    The world reports the calls it makes as a list of events, so that
    statements about what is called, how often and in which order can be
    made about that list. *)

From Stdlib Require Import String.
From Stdlib Require Import List ZArith Lia Bool Arith Sorted.
Import ListNotations.

(** ** GameState *)

(** [class GameState]: [_lives = 3; _score = 0; _catsReturnedinARow = 0]. *)
Record GameState := mkGameState {
  _lives : Z;
  _score : Z;
  _catsReturnedinARow : Z
}.

Definition newGameState : GameState := mkGameState 3 0 0.

(** [get catsReturnedinARow()], [get lives()], [get score()]. *)
Definition catsReturnedinARow (s : GameState) : Z := _catsReturnedinARow s.
Definition lives (s : GameState) : Z := _lives s.
Definition score (s : GameState) : Z := _score s.

(** [gainLife() { this._lives++; }] *)
Definition gainLife (s : GameState) : GameState :=
  mkGameState (_lives s + 1) (_score s) (_catsReturnedinARow s).

(** [set catsReturnedinARow(newValue)]: more than 5 in a row adds a life and
    clears the counter, anything else is stored. *)
Definition set_catsReturnedinARow (newValue : Z) (s : GameState) : GameState :=
  if (newValue >? 5)%Z then
    let s1 := gainLife s in
    mkGameState (_lives s1) (_score s1) 0
  else
    mkGameState (_lives s) (_score s) newValue.

(** [loseLife() { this.catsReturnedinARow = 0; this._lives--; }] *)
Definition loseLife (s : GameState) : GameState :=
  let s1 := set_catsReturnedinARow 0 s in
  mkGameState (_lives s1 - 1) (_score s1) (_catsReturnedinARow s1).

(** [increaseScore(amount) { this.catsReturnedinARow++; this._score += amount; }]
    The postfix increment reads the getter and calls the setter with the
    value plus one. *)
Definition increaseScore (amount : Z) (s : GameState) : GameState :=
  let s1 := set_catsReturnedinARow (catsReturnedinARow s + 1) s in
  mkGameState (_lives s1) (_score s1 + amount) (_catsReturnedinARow s1).

(** The three mutators, for statements about sequences of calls. *)
Inductive StateOp :=
| OpIncreaseScore (amount : Z)
| OpLoseLife
| OpGainLife.

Definition applyOp (op : StateOp) (s : GameState) : GameState :=
  match op with
  | OpIncreaseScore amount => increaseScore amount s
  | OpLoseLife => loseLife s
  | OpGainLife => gainLife s
  end.

(** An operation that is not an [increaseScore] of a negative amount. *)
Definition nonNegative (op : StateOp) : Prop :=
  match op with
  | OpIncreaseScore amount => (0 <= amount)%Z
  | _ => True
  end.

Definition applyOps (ops : list StateOp) (s : GameState) : GameState :=
  fold_left (fun acc op => applyOp op acc) ops s.

(** The scores after each call of a sequence, the starting score first. *)
Fixpoint scoreHistory (ops : list StateOp) (s : GameState) : list Z :=
  match ops with
  | [] => [score s]
  | op :: ops' => score s :: scoreHistory ops' (applyOp op s)
  end.

(** [src/game/store.ts]: the copy of the class without the streak. *)
Module GameStore.

Record GameState := mkGameState {
  _lives : Z;
  _score : Z
}.

Definition newGameState : GameState := mkGameState 3 0.

Definition lives (s : GameState) : Z := _lives s.
Definition score (s : GameState) : Z := _score s.

(** [loseLife() { this._lives--; }] *)
Definition loseLife (s : GameState) : GameState :=
  mkGameState (_lives s - 1) (_score s).

(** [increaseScore(amount) { this._score += amount; }] *)
Definition increaseScore (amount : Z) (s : GameState) : GameState :=
  mkGameState (_lives s) (_score s + amount).

End GameStore.

(** ** The world: class Game, the Entity objects it holds, the keyup listeners *)

(** An [Entity] object, by reference. *)
Definition Entity := nat.

(** What [initEntities] builds (the comments above each [addEntity] call). *)
Inductive Blueprint :=
| Player
| Dog
| CatSpawner
| Pen
| LeftTable
| RightTable.

(** The fields of [Game] that the modelled methods use, the fields of the
    entity objects the world reads or writes ([deleted], [entityId]), the
    number of entity objects constructed so far (the next [new Entity()] is
    that reference), and the keyup listeners registered on [document]: each
    listener is a closure of one [update] call and owns the [breakCircuit]
    variable of that call. *)
Record World := mkWorld {
  entities : list Entity;
  count : Z;
  state : GameState;
  deleted : Entity -> bool;
  entityId : Entity -> option Z;
  blueprint : Entity -> option Blueprint;
  allocated : nat;
  listeners : list bool
}.

Definition set_entities (l : list Entity) (w : World) : World :=
  mkWorld l (count w) (state w) (deleted w) (entityId w) (blueprint w)
          (allocated w) (listeners w).

Definition set_count (n : Z) (w : World) : World :=
  mkWorld (entities w) n (state w) (deleted w) (entityId w) (blueprint w)
          (allocated w) (listeners w).

Definition set_state (s : GameState) (w : World) : World :=
  mkWorld (entities w) (count w) s (deleted w) (entityId w) (blueprint w)
          (allocated w) (listeners w).

Definition set_deleted (e : Entity) (b : bool) (w : World) : World :=
  mkWorld (entities w) (count w) (state w)
          (fun x => if Nat.eqb x e then b else deleted w x)
          (entityId w) (blueprint w) (allocated w) (listeners w).

Definition set_entityId (e : Entity) (id : Z) (w : World) : World :=
  mkWorld (entities w) (count w) (state w) (deleted w)
          (fun x => if Nat.eqb x e then Some id else entityId w x)
          (blueprint w) (allocated w) (listeners w).

Definition set_listeners (l : list bool) (w : World) : World :=
  mkWorld (entities w) (count w) (state w) (deleted w) (entityId w)
          (blueprint w) (allocated w) l.

(** [new Entity()] with the components of blueprint [b] attached: a fresh
    object, not deleted, without an identifier. *)
Definition newEntity (b : Blueprint) (w : World) : Entity * World :=
  let e := allocated w in
  (e, mkWorld (entities w) (count w) (state w)
              (fun x => if Nat.eqb x e then false else deleted w x)
              (fun x => if Nat.eqb x e then None else entityId w x)
              (fun x => if Nat.eqb x e then Some b else blueprint w x)
              (S e) (listeners w)).

(** [new Game(app)]: no entities, [count = 1], a new [GameState]. *)
Definition newGame : World :=
  mkWorld [] 1%Z newGameState (fun _ => false) (fun _ => None)
          (fun _ => None) 0 [].

(** Replace element [k] of a list (nothing happens out of range). *)
Fixpoint list_set {A : Type} (k : nat) (a : A) (l : list A) : list A :=
  match l, k with
  | [], _ => []
  | _ :: l', O => a :: l'
  | x :: l', S k' => x :: list_set k' a l'
  end.

(** The calls the world makes, in the order it makes them.  Collision events
    carry the indices into the snapshot [collidingEntities]. *)
Inductive Event :=
| EvSpawn (e : Entity)                 (* e.spawn(this) *)
| EvAssignId (e : Entity) (id : Z)     (* e.entityId = this.count; this.count++ *)
| EvPush (e : Entity)                  (* this.entities.push(e) *)
| EvUpdate (e : Entity)                (* e.update(deltaMS) *)
| EvDestroy (e : Entity)               (* e.destroy() *)
| EvLateUpdate (e : Entity)            (* e.lateUpdate(deltaMS) *)
| EvIntersects (i j : nat) (b : bool)  (* e1Hitbox.intersects(e2Hitbox), result b *)
| EvCollidedWith (i j : nat)           (* hitbox of [i] notified with hitbox of [j] *)
| EvNewGameState.                      (* this.state = new GameState() *)

Definition Event_eq_dec (a b : Event) : {a = b} + {a <> b}.
Proof.
  decide equality;
    try apply Nat.eq_dec; try apply Z.eq_dec; try apply Bool.bool_dec.
Defined.

(** A piece of the program: it transforms the world and reports the calls it
    made. *)
Definition Pass := World -> World * list Event.

Definition skip : Pass := fun w => (w, []).

Definition andThen (p q : Pass) : Pass := fun w =>
  let '(w1, t1) := p w in
  let '(w2, t2) := q w1 in
  (w2, t1 ++ t2).

Notation "p >> q" := (andThen p q) (at level 61, left associativity).

(** A call of a method of a collaborator. *)
Definition call (h : World -> World) (ev : Event) : Pass :=
  fun w => (h w, [ev]).

(** A step of the world itself that makes no call. *)
Definition lift (f : World -> World) : Pass := fun w => (f w, []).

(** A loop over a fixed list of values (an array copy, or a range of
    indices). *)
Fixpoint for_ {A : Type} (l : list A) (body : A -> Pass) : Pass :=
  match l with
  | [] => skip
  | a :: l' => body a >> for_ l' body
  end.

(** The collaborators of [Game].  [Delta] is the type of
    [app.ticker.deltaMS], [Hitbox] the type of a [HitboxComponent]; the
    methods of [Entity] and [HitboxComponent] may change anything they can
    reach, so they are arbitrary functions on the world; a method that
    throws is outside the model.  The three flags are read from
    [config.json]. *)
Class Externals (Delta Hitbox : Type) := {
  Entity_spawn : Entity -> World -> World;
  Entity_update : Entity -> Delta -> World -> World;
  Entity_lateUpdate : Entity -> Delta -> World -> World;
  Entity_destroy : Entity -> World -> World;
  getHitboxFrom : Entity -> World -> Hitbox;
  intersects : Hitbox -> Hitbox -> World -> bool;
  collidedWith : Hitbox -> Hitbox -> World -> World;
  cfg_dog_enabled : bool;
  cfg_leftTable_enabled : bool;
  cfg_rightTable_enabled : bool
}.

(** What happens to the program from outside: the frame clock calls
    [update()], the browser dispatches a keyup event. *)
Inductive Input (Delta : Type) :=
| Tick (deltaMS : Delta)
| KeyUp (code : string).

Arguments Tick {Delta} deltaMS.
Arguments KeyUp {Delta} code.

Section Game.

Context {Delta Hitbox : Type} {ext : Externals Delta Hitbox}.

(** [addEntity(e)]:
    [e.spawn(this); e.entityId = this.count; this.count++; this.entities.push(e);] *)
Definition addEntity (e : Entity) : Pass := fun w =>
  let w1 := Entity_spawn e w in
  let id := count w1 in
  let w2 := set_entityId e id w1 in
  let w3 := set_count (count w2 + 1) w2 in
  let w4 := set_entities (entities w3 ++ [e]) w3 in
  (w4, [EvSpawn e; EvAssignId e id; EvPush e]).

(** [this.addEntity(new Entity().attach(...)...)] *)
Definition build (b : Blueprint) : Pass := fun w =>
  let '(e, w1) := newEntity b w in
  addEntity e w1.

(** [initEntities()]: player, dog if enabled, cat spawner, pen, the two
    tables if enabled. *)
Definition initEntities : Pass :=
  build Player
  >> (if cfg_dog_enabled then build Dog else skip)
  >> build CatSpawner
  >> build Pen
  >> (if cfg_leftTable_enabled then build LeftTable else skip)
  >> (if cfg_rightTable_enabled then build RightTable else skip).

(** [getEntities()], [getState()] *)
Definition getEntities (w : World) : list Entity := entities w.
Definition getState (w : World) : GameState := state w.

(** [isGameOver() { return this.state.lives <= 0; }] *)
Definition isGameOver (w : World) : bool := (lives (state w) <=? 0)%Z.

(** The body of the inner loop of [detectCollisions], after the two
    [deleted] checks: resolve both hitboxes, test, notify both. *)
Definition collide (i j : nat) (e1 e2 : Entity) : Pass := fun w =>
  let e1Hitbox := getHitboxFrom e1 w in
  let e2Hitbox := getHitboxFrom e2 w in
  if intersects e1Hitbox e2Hitbox w then
    let w1 := collidedWith e1Hitbox e2Hitbox w in
    let w2 := collidedWith e2Hitbox e1Hitbox w1 in
    (w2, [EvIntersects i j true; EvCollidedWith i j; EvCollidedWith j i])
  else
    (w, [EvIntersects i j false]).

(** One iteration of [for (let j = i + 1; ...)]. *)
Definition innerBody (collidingEntities : list Entity) (i : nat)
           (e1 : Entity) (j : nat) : Pass := fun w =>
  match nth_error collidingEntities j with
  | None => (w, [])
  | Some e2 =>
      if deleted w e2 then (w, [])           (* continue *)
      else collide i j e1 e2 w
  end.

(** One iteration of [for (let i = 0; ...)]: [e1.deleted] is read here,
    before the inner loop starts. *)
Definition outerBody (collidingEntities : list Entity) (i : nat) : Pass :=
  fun w =>
  match nth_error collidingEntities i with
  | None => (w, [])
  | Some e1 =>
      if deleted w e1 then (w, [])           (* continue *)
      else
        for_ (seq (S i) (length collidingEntities - S i))
             (innerBody collidingEntities i e1) w
  end.

(** [detectCollisions()] *)
Definition detectCollisions : Pass := fun w =>
  let collidingEntities := entities w in
  for_ (seq 0 (length collidingEntities)) (outerBody collidingEntities) w.

(** [[...this.entities].forEach(e => e.update(deltaMS))] *)
Definition updatePass (deltaMS : Delta) : Pass := fun w =>
  for_ (entities w)
       (fun e => call (Entity_update e deltaMS) (EvUpdate e)) w.

(** [this.entities.filter(e => e.deleted).forEach(e => e.destroy())]: the
    filter runs to its end before the first [destroy]. *)
Definition destroyPass : Pass := fun w =>
  for_ (filter (deleted w) (entities w))
       (fun e => call (Entity_destroy e) (EvDestroy e)) w.

(** [this.entities = this.entities.filter(e => !e.deleted)] *)
Definition compact (w : World) : World :=
  set_entities (filter (fun e => negb (deleted w e)) (entities w)) w.

(** [[...this.entities].forEach(e => e.lateUpdate(deltaMS))] *)
Definition lateUpdatePass (deltaMS : Delta) : Pass := fun w =>
  for_ (entities w)
       (fun e => call (Entity_lateUpdate e deltaMS) (EvLateUpdate e)) w.

(** The part of [update()] after the game-over check. *)
Definition frame (deltaMS : Delta) : Pass :=
  updatePass deltaMS
  >> destroyPass
  >> lift compact
  >> detectCollisions
  >> lateUpdatePass deltaMS.

(** [update()].  While the game is over it declares a new [breakCircuit],
    [false], registers one more keyup listener that closes over it, and
    returns. *)
Definition update (deltaMS : Delta) : Pass := fun w =>
  if isGameOver w then
    (set_listeners (listeners w ++ [false]) w, [])
  else
    frame deltaMS w.

(** [this.entities.forEach(entity => entity.destroy())] on the array
    itself: the indices below the length at the start, each read when it
    is reached. *)
Definition destroyAll : Pass := fun w =>
  for_ (seq 0 (length (entities w)))
       (fun k w' =>
          match nth_error (entities w') k with
          | Some e => call (Entity_destroy e) (EvDestroy e) w'
          | None => (w', [])
          end) w.

(** The four statements the listener runs before it sets its guard. *)
Definition reset : Pass :=
  destroyAll
  >> lift (set_entities [])
  >> call (set_state newGameState) EvNewGameState
  >> initEntities.

(** The listener registered by the [k]-th game-over call of [update()]:
    [if (event.code === 'Space' && !breakCircuit) { ...; breakCircuit = true; }] *)
Definition listener (k : nat) (code : string) : Pass := fun w =>
  if String.eqb code "Space"%string && negb (nth k (listeners w) true) then
    (reset >> lift (fun w' => set_listeners (list_set k true (listeners w')) w')) w
  else
    (w, []).

(** A keyup event: the listeners registered when the dispatch starts run
    in the order of their registration. *)
Definition keyup (code : string) : Pass := fun w =>
  for_ (seq 0 (length (listeners w))) (fun k => listener k code) w.

Definition step (i : Input Delta) : Pass :=
  match i with
  | Tick deltaMS => update deltaMS
  | KeyUp code => keyup code
  end.

Definition run (inputs : list (Input Delta)) : Pass := for_ inputs step.

(** A sequence of [addEntity] calls. *)
Definition addEntities (es : list Entity) : Pass := for_ es addEntity.

End Game.

(** The identifiers assigned by the calls of a trace, and how often the
    reset ran. *)
Definition assignedIds (tr : list Event) : list Z :=
  flat_map (fun ev => match ev with EvAssignId _ id => [id] | _ => [] end) tr.

Definition resets (tr : list Event) : nat :=
  count_occ Event_eq_dec tr EvNewGameState.

(** ** The specification's wording, where it is compared with the code *)

Section Specified.

Context {Delta Hitbox : Type} {ext : Externals Delta Hitbox}.

(** [addEntity] in the order the specification gives: assign the next
    identifier, call [e.spawn(this)], append. *)
Definition addEntity_specified (e : Entity) : Pass := fun w =>
  let id := count w in
  let w1 := set_entityId e id w in
  let w2 := set_count (count w1 + 1) w1 in
  let w3 := Entity_spawn e w2 in
  let w4 := set_entities (entities w3 ++ [e]) w3 in
  (w4, [EvAssignId e id; EvSpawn e; EvPush e]).

(** "The live collection contains no entity with [deleted == true]." *)
Definition noDeletedEntity (w : World) : Prop :=
  forall e, In e (entities w) -> deleted w e = false.

(** "For each index pair i < j whose hitboxes intersect, [collidedWith] is
    invoked exactly once in each direction", for a collision pass started
    in [w]. *)
Definition everyOverlapNotified (w : World) : Prop :=
  forall i j e1 e2,
    i < j ->
    nth_error (entities w) i = Some e1 ->
    nth_error (entities w) j = Some e2 ->
    intersects (getHitboxFrom e1 w) (getHitboxFrom e2 w) w = true ->
    count_occ Event_eq_dec (snd (detectCollisions w)) (EvCollidedWith i j) = 1
    /\ count_occ Event_eq_dec (snd (detectCollisions w)) (EvCollidedWith j i) = 1.

End Specified.

(** The events of a trace that involve index [k] of the collision snapshot. *)
Definition involves (k : nat) (ev : Event) : bool :=
  match ev with
  | EvIntersects i j _ => Nat.eqb i k || Nat.eqb j k
  | EvCollidedWith i j => Nat.eqb i k || Nat.eqb j k
  | _ => false
  end.

(** ** Small worlds to run the code on *)

(** Collaborators that do nothing: no hook changes the world and no two
    hitboxes overlap.  The hitbox of an entity is named by the entity. *)
Definition quiet : Externals Z Entity := {|
  Entity_spawn := fun _ w => w;
  Entity_update := fun _ _ w => w;
  Entity_lateUpdate := fun _ _ w => w;
  Entity_destroy := fun _ w => w;
  getHitboxFrom := fun e _ => e;
  intersects := fun _ _ _ => false;
  collidedWith := fun _ _ w => w;
  cfg_dog_enabled := true;
  cfg_leftTable_enabled := true;
  cfg_rightTable_enabled := true
|}.

(** Collaborators given by what an entity does when it is updated and when
    its hitbox is notified of a collision; every two hitboxes overlap. *)
Definition scripted (onUpdate : Entity -> World -> World)
           (onCollision : Entity -> Entity -> World -> World)
  : Externals Z Entity := {|
  Entity_spawn := fun _ w => w;
  Entity_update := fun e _ w => onUpdate e w;
  Entity_lateUpdate := fun _ _ w => w;
  Entity_destroy := fun _ w => w;
  getHitboxFrom := fun e _ => e;
  intersects := fun _ _ _ => true;
  collidedWith := onCollision;
  cfg_dog_enabled := false;
  cfg_leftTable_enabled := false;
  cfg_rightTable_enabled := false
|}.

(** Entity 0 marks itself deleted whenever its hitbox is notified (a cat
    that is caught). *)
Definition caught : Externals Z Entity :=
  scripted (fun _ w => w)
           (fun h1 _ w => if Nat.eqb h1 0 then set_deleted 0 true w else w).

(** Entity 1, when notified, marks entity 2 deleted. *)
Definition chased : Externals Z Entity :=
  scripted (fun _ w => w)
           (fun h1 _ w => if Nat.eqb h1 1 then set_deleted 2 true w else w).

(** Entity 0, when updated, adds entity 5 to the world (a spawner). *)
Definition spawning : Externals Z Entity :=
  scripted (fun e w => if Nat.eqb e 0
                       then fst (addEntity (ext := quiet) 5 w) else w)
           (fun _ _ w => w).

(** Entity 0, when updated, adds entity 5 and marks it deleted at once. *)
Definition stillborn : Externals Z Entity :=
  scripted (fun e w => if Nat.eqb e 0
                       then set_deleted 5 true (fst (addEntity (ext := quiet) 5 w))
                       else w)
           (fun _ _ w => w).

(** The [spawn] of entity 0 adds entity 1 to the world. *)
Definition nesting : Externals Z Entity := {|
  Entity_spawn := fun e w => if Nat.eqb e 0
                             then fst (addEntity (ext := quiet) 1 w) else w;
  Entity_update := fun _ _ w => w;
  Entity_lateUpdate := fun _ _ w => w;
  Entity_destroy := fun _ w => w;
  getHitboxFrom := fun e _ => e;
  intersects := fun _ _ _ => false;
  collidedWith := fun _ _ w => w;
  cfg_dog_enabled := false;
  cfg_leftTable_enabled := false;
  cfg_rightTable_enabled := false
|}.

(** A new world to which the entities [es] have been added, in this order,
    by [addEntity]; none is deleted. *)
Definition worldOf (es : list Entity) : World :=
  fst (addEntities (ext := quiet) es newGame).

(** The world after [setup()] once the last life is lost. *)
Definition lostGame : World :=
  let w := fst (initEntities (ext := quiet) newGame) in
  set_state (loseLife (loseLife (loseLife (state w)))) w.

(** The number of [update()] calls among the inputs. *)
Fixpoint ticks {Delta : Type} (inputs : list (Input Delta)) : nat :=
  match inputs with
  | [] => 0
  | Tick _ :: rest => S (ticks rest)
  | KeyUp _ :: rest => ticks rest
  end.

(** An input that is not the reset trigger. *)
Definition notSpaceKeyUp {Delta : Type} (i : Input Delta) : Prop :=
  match i with
  | Tick _ => True
  | KeyUp code => code <> "Space"%string
  end.

(** ** Points inside a frame and inside a collision pass *)

Section Points.

Context {Delta Hitbox : Type} {ext : Externals Delta Hitbox}.

(** The world after the update pass, after the destruction pass, and
    after the collision pass of a frame started in [w]. *)
Definition afterUpdatePass (deltaMS : Delta) (w : World) : World :=
  fst (updatePass deltaMS w).

Definition afterDestroyPass (deltaMS : Delta) (w : World) : World :=
  fst (destroyPass (afterUpdatePass deltaMS w)).

Definition afterCollisions (deltaMS : Delta) (w : World) : World :=
  fst (detectCollisions (compact (afterDestroyPass deltaMS w))).

(** The array [collidingEntities] of that frame. *)
Definition collisionSnapshot (deltaMS : Delta) (w : World) : list Entity :=
  entities (compact (afterDestroyPass deltaMS w)).

(** In a collision pass started in [w]: the world when the outer loop
    reaches index [i], and the world when the inner loop of [i], running
    for the entity [e1], reaches index [j]. *)
Definition beforeOuter (w : World) (i : nat) : World :=
  fst (for_ (seq 0 i) (outerBody (entities w)) w).

Definition beforePair (w : World) (i j : nat) (e1 : Entity) : World :=
  fst (for_ (seq (S i) (j - S i)) (innerBody (entities w) i e1)
            (beforeOuter w i)).

(** The pair is tested: [e1] was not deleted when the outer loop reached
    it, [e2] is not deleted when the inner loop reaches it. *)
Definition pairTested (w : World) (i j : nat) (e1 e2 : Entity) : bool :=
  negb (deleted (beforeOuter w i) e1)
  && negb (deleted (beforePair w i j e1) e2).

(** The result of [e1Hitbox.intersects(e2Hitbox)] at that point. *)
Definition pairOverlaps (w : World) (i j : nat) (e1 e2 : Entity) : bool :=
  let v := beforePair w i j e1 in
  intersects (getHitboxFrom e1 v) (getHitboxFrom e2 v) v.

(** The calls the pass makes for the pair. *)
Definition pairBlock (w : World) (i j : nat) (e1 e2 : Entity) : list Event :=
  if pairTested w i j e1 e2 then
    if pairOverlaps w i j e1 e2 then
      [EvIntersects i j true; EvCollidedWith i j; EvCollidedWith j i]
    else
      [EvIntersects i j false]
  else
    [].

(** No callback changes a [deleted] flag. *)
Definition callbacksDeleteNothing : Prop :=
  forall h1 h2 w e, deleted (collidedWith h1 h2 w) e = deleted w e.

End Points.

(** The pair of snapshot indices a collision event belongs to, smaller
    index first. *)
Definition owner (ev : Event) : option (nat * nat) :=
  match ev with
  | EvIntersects i j _ => Some (i, j)
  | EvCollidedWith a b => Some (Nat.min a b, Nat.max a b)
  | _ => None
  end.

Definition isCollisionEvent (ev : Event) : Prop :=
  match ev with
  | EvIntersects _ _ _ | EvCollidedWith _ _ => True
  | _ => False
  end.

(** ** Conventions the collaborators follow *)

(** A method that removes nothing from the collection of the world. *)
Definition keepsCollection (h : World -> World) : Prop :=
  forall w x, In x (entities w) -> In x (entities (h w)).

Section Conventions.

Context {Delta Hitbox : Type} {ext : Externals Delta Hitbox}.

(** [count] is private to [Game]: a collaborator changes it only by
    calling [addEntity], which increments it. *)
Definition counterIsPrivate : Prop :=
  (forall e w, (count w <= count (Entity_spawn e w))%Z)
  /\ (forall e d w, (count w <= count (Entity_update e d w))%Z)
  /\ (forall e d w, (count w <= count (Entity_lateUpdate e d w))%Z)
  /\ (forall e w, (count w <= count (Entity_destroy e w))%Z)
  /\ (forall h1 h2 w, (count w <= count (collidedWith h1 h2 w))%Z).

(** [spawn] adds no entity of its own. *)
Definition spawnAddsNothing : Prop :=
  forall e w, count (Entity_spawn e w) = count w.

(** Components do not splice the collection: what [destroy],
    [collidedWith] and [lateUpdate] find in it they leave in it. *)
Definition destroyKeepsCollection : Prop :=
  forall e, keepsCollection (Entity_destroy e).

Definition collidedWithKeepsCollection : Prop :=
  forall h1 h2, keepsCollection (collidedWith h1 h2).

Definition lateUpdateKeepsCollection : Prop :=
  forall e d, keepsCollection (Entity_lateUpdate e d).

End Conventions.

(** A piece of the program that hands out identifiers in increasing order,
    all of them between the counter before and the counter after. *)
Definition numbersUpward (p : Pass) : Prop :=
  forall w,
    (count w <= count (fst (p w)))%Z
    /\ StronglySorted Z.lt (assignedIds (snd (p w)))
    /\ Forall (fun id => (count w <= id < count (fst (p w)))%Z)
              (assignedIds (snd (p w))).

(** ** The identifiers the entities hold *)

(** The identifiers the entities of [w] hold are identifiers the counter
    has handed out: each is at least 1 and below [count], and no two
    entities hold the same. *)
Definition wellNumbered (w : World) : Prop :=
  (1 <= count w)%Z
  /\ (forall x id, entityId w x = Some id -> (1 <= id < count w)%Z)
  /\ (forall x y id, entityId w x = Some id -> entityId w y = Some id -> x = y).

(** From [w] to [w'] identifiers were handed out by the counter only: the
    counter did not go back, and an identifier an entity holds in [w'] is
    the one it held in [w] or one the counter had not reached in [w]. *)
Definition numberedFrom (w w' : World) : Prop :=
  wellNumbered w'
  /\ (count w <= count w')%Z
  /\ (forall x id, entityId w' x = Some id ->
        entityId w x = Some id \/ (count w <= id)%Z).

(** No identifier an entity holds in [w] is held by another entity in
    [w']. *)
Definition neverReused (w w' : World) : Prop :=
  forall x y id, entityId w x = Some id -> entityId w' y = Some id -> x = y.

(** A method that gives identifiers only by calling [addEntity]. *)
Definition numbersByAddingOnly (h : World -> World) : Prop :=
  forall w, wellNumbered w -> numberedFrom w (h w).

Definition keepsNumbering (p : Pass) : Prop :=
  forall w, wellNumbered w -> numberedFrom w (fst (p w)).

Section IdentifierConventions.

Context {Delta Hitbox : Type} {ext : Externals Delta Hitbox}.

(** [count] is private to [Game] and components do not assign
    [entityId]: a collaborator changes either only by calling
    [addEntity]. *)
Definition identifiersArePrivate : Prop :=
  (forall e, numbersByAddingOnly (Entity_spawn e))
  /\ (forall e d, numbersByAddingOnly (Entity_update e d))
  /\ (forall e d, numbersByAddingOnly (Entity_lateUpdate e d))
  /\ (forall e, numbersByAddingOnly (Entity_destroy e))
  /\ (forall h1 h2, numbersByAddingOnly (collidedWith h1 h2)).

(** [spawn] leaves the identifier of every entity that has one. *)
Definition spawnKeepsIdentifiers : Prop :=
  forall e w x id,
    entityId w x = Some id -> entityId (Entity_spawn e w) x = Some id.

End IdentifierConventions.

(** ** More of GameState: totals over a sequence of operations *)

(** The sum of the [increaseScore] amounts of a sequence. *)
Fixpoint totalAmount (ops : list StateOp) : Z :=
  match ops with
  | [] => 0
  | OpIncreaseScore amount :: rest => amount + totalAmount rest
  | _ :: rest => totalAmount rest
  end.

(** An integer that a double holds exactly and up to which doubles add
    integers exactly: at most 2^53 in absolute value. *)
Definition exactInteger (z : Z) : Prop := (- 2 ^ 53 <= z <= 2 ^ 53)%Z.

(** An operation whose amount, if it has one, is such an integer. *)
Definition exactAmount (op : StateOp) : Prop :=
  match op with
  | OpIncreaseScore amount => exactInteger amount
  | _ => True
  end.

(** The number of [loseLife] calls of a sequence. *)
Fixpoint losses (ops : list StateOp) : nat :=
  match ops with
  | [] => 0
  | OpLoseLife :: rest => S (losses rest)
  | _ :: rest => losses rest
  end.

(** ** PickupComponent *)

Module Pickup.

(** [class PickupComponent]: [public height: number = 0]. *)
Record PickupComponent := mkPickupComponent {
  height : Z
}.

Definition newPickupComponent : PickupComponent := mkPickupComponent 0.

(** The element [create()] returns: [canvas.height = 50; canvas.width = 800]. *)
Record Canvas := mkCanvas {
  canvasWidth : Z;
  canvasHeight : Z
}.

Definition create : Canvas := mkCanvas 800 50.

(** The [onload] handler that [createPerson()] gives its image:
    [context.drawImage(image, 0, this.height)], then
    [if (this.height <= 30) this.height += 5; else this.height -= 5].
    The result is the component and the corner the image was drawn at. *)
Definition onload (c : PickupComponent) : PickupComponent * (Z * Z) :=
  let drawn := (0, height c)%Z in
  if (height c <=? 30)%Z then (mkPickupComponent (height c + 5), drawn)
  else (mkPickupComponent (height c - 5), drawn).

(** [n] images loaded one after the other: the component and the corners
    drawn at, in order. *)
Fixpoint loads (n : nat) (c : PickupComponent) : PickupComponent * list (Z * Z) :=
  match n with
  | O => (c, [])
  | S n' =>
      let '(c1, d) := onload c in
      let '(c2, ds) := loads n' c1 in
      (c2, d :: ds)
  end.

End Pickup.

(** ** AnimatedSpriteComponent *)

Module AnimatedSprite.

(** [type Direction = 'up' | 'down' | 'left' | 'right'] *)
Inductive Direction := up | down | left | right.

Definition directionName (d : Direction) : string :=
  match d with
  | up => "up"
  | down => "down"
  | left => "left"
  | right => "right"
  end.

Section Coordinates.

(** The numbers of the geometry with JavaScript's [>] and [<] on them, and
    the geometry PIXI gives a sprite constructed from an animation. *)
Context {T : Type} (gtb ltb : T -> T -> bool).

Record Box := mkBox {
  x : T;
  y : T;
  width : T;
  height : T
}.

Context (textureBox : string -> Box).

(** A [PIXI.AnimatedSprite]: the key of the animation it was constructed
    from, the values last assigned to its [x], [y], [width] and [height],
    whether [destroy()] was called on it.  PIXI keeps [x] and [y] as they
    are assigned; what it gives back for [width] and [height] goes through
    the scale of the sprite and is not part of the model. *)
Record Sprite := mkSprite {
  animation : string;
  box : Box;
  destroyed : bool
}.

(** The component: [filename], [this.sprite] as an index into the sprites
    the component has constructed so far, and the sprites it has passed to
    [viewport.addChild], in order.  The hitbox is the one of the entity; its
    geometry at the time of a call is an argument of the call. *)
Record Component := mkComponent {
  filename : string;
  sprite : nat;
  sprites : list Sprite;
  stage : list nat
}.

(** [`${filename}_${direction}`] *)
Definition animationKey (name : string) (d : Direction) : string :=
  (name ++ "_" ++ directionName d)%string.

(** [constructor(filename)]: the sprite of [`${filename}_down`]. *)
Definition newComponent (name : string) : Component :=
  mkComponent name 0
    [mkSprite (animationKey name down) (textureBox (animationKey name down)) false]
    [].

Definition currentSprite (c : Component) : option Sprite :=
  nth_error (sprites c) (sprite c).

(** [snapToEntity()]: the four assignments to [this.sprite]. *)
Definition snapToEntity (hitbox : Box) (c : Component) : Component :=
  match currentSprite c with
  | None => c
  | Some s =>
      let b := mkBox (x hitbox) (y hitbox) (width hitbox) (height hitbox) in
      mkComponent (filename c) (sprite c)
        (list_set (sprite c) (mkSprite (animation s) b (destroyed s)) (sprites c))
        (stage c)
  end.

(** [onSpawn()]: register the sprite with the viewport, retrieve the
    hitbox, snap. *)
Definition onSpawn (hitbox : Box) (c : Component) : Component :=
  snapToEntity hitbox
    (mkComponent (filename c) (sprite c) (sprites c) (stage c ++ [sprite c])).

(** The chain of comparisons of [updateDirection()]: [None] is its
    [return]. *)
Definition newDirection (spriteBox hitbox : Box) : option Direction :=
  if gtb (x spriteBox) (x hitbox) then Some left
  else if ltb (x spriteBox) (x hitbox) then Some right
  else if gtb (y spriteBox) (y hitbox) then Some up
  else if ltb (y spriteBox) (y hitbox) then Some down
  else None.

(** "Update the texture": [this.sprite.destroy()], a new sprite of
    [`${filename}_${newDirection}`], [addChild]. *)
Definition replaceSprite (d : Direction) (c : Component) : Component :=
  match currentSprite c with
  | None => c
  | Some s =>
      let key := animationKey (filename c) d in
      let fresh := length (sprites c) in
      mkComponent (filename c) fresh
        (list_set (sprite c) (mkSprite (animation s) (box s) true) (sprites c)
         ++ [mkSprite key (textureBox key) false])
        (stage c ++ [fresh])
  end.

(** [updateDirection()] *)
Definition updateDirection (hitbox : Box) (c : Component) : Component :=
  match currentSprite c with
  | None => c
  | Some s =>
      match newDirection (box s) hitbox with
      | Some d => replaceSprite d c
      | None => c
      end
  end.

(** [update(delta)]: [updateDirection(); snapToEntity();] *)
Definition update (hitbox : Box) (c : Component) : Component :=
  snapToEntity hitbox (updateDirection hitbox c).

(** A component constructed, spawned with the hitbox at [first], and
    updated once for each later geometry of the hitbox. *)
Definition lifetime (name : string) (first : Box) (later : list Box) : Component :=
  fold_left (fun c hitbox => update hitbox c) later
            (onSpawn first (newComponent name)).

(** The direction the hitbox last moved in, [down] if it never moved. *)
Fixpoint facing (d : Direction) (previous : Box) (later : list Box) : Direction :=
  match later with
  | [] => d
  | hitbox :: rest =>
      match newDirection previous hitbox with
      | Some d' => facing d' hitbox rest
      | None => facing d hitbox rest
      end
  end.

(** The number of updates that found the hitbox moved. *)
Fixpoint moves (previous : Box) (later : list Box) : nat :=
  match later with
  | [] => 0
  | hitbox :: rest =>
      match newDirection previous hitbox with
      | Some _ => S (moves hitbox rest)
      | None => moves hitbox rest
      end
  end.

(** The geometry of the hitbox at the last call. *)
Definition lastBox (first : Box) (later : list Box) : Box :=
  last later first.

(** The component shows the hitbox at [hitbox] facing [d] and has replaced
    its sprite [m] times: its current sprite is the newest one, alive, of
    the animation of [d], with the geometry [hitbox]; all the older ones are
    destroyed; each sprite was added to the viewport once, in order. *)
Definition tracks (name : string) (hitbox : Box) (d : Direction) (m : nat)
           (c : Component) : Prop :=
  filename c = name
  /\ sprite c = m
  /\ length (sprites c) = S m
  /\ stage c = seq 0 (S m)
  /\ nth_error (sprites c) m = Some (mkSprite (animationKey name d) hitbox false)
  /\ (forall k, k < m ->
                exists s, nth_error (sprites c) k = Some s /\ destroyed s = true).

End Coordinates.

End AnimatedSprite.

(** ** More conventions, and what further statements count *)

Section MoreConventions.

Context {Delta Hitbox : Type} {ext : Externals Delta Hitbox}.

(** The [breakCircuit] variables live in the closures of the listeners: no
    [spawn] and no [destroy] reaches them. *)
Definition listenersArePrivate : Prop :=
  (forall e w, listeners (Entity_spawn e w) = listeners w)
  /\ (forall e w, listeners (Entity_destroy e w) = listeners w).

(** [spawn] leaves the lives and the score alone. *)
Definition spawnKeepsState : Prop :=
  forall e w, state (Entity_spawn e w) = state w.

(** [spawn] only sets the entity up: it adds, removes, numbers, constructs
    and deletes nothing. *)
Definition spawnIsLocal : Prop :=
  forall e w,
    entities (Entity_spawn e w) = entities w
    /\ count (Entity_spawn e w) = count w
    /\ allocated (Entity_spawn e w) = allocated w
    /\ (forall x, deleted (Entity_spawn e w) x = deleted w x)
    /\ (forall x, entityId (Entity_spawn e w) x = entityId w x)
    /\ (forall x, blueprint (Entity_spawn e w) x = blueprint w x).

(** [destroy] changes neither the collection nor a [deleted] flag. *)
Definition destroyIsLocal : Prop :=
  forall e w,
    entities (Entity_destroy e w) = entities w
    /\ (forall x, deleted (Entity_destroy e w) x = deleted w x).

(** What [initEntities] builds with the flags of the configuration, in
    order. *)
Definition blueprints : list Blueprint :=
  (((([Player] ++ (if cfg_dog_enabled then [Dog] else []))
       ++ [CatSpawner])
      ++ [Pen])
     ++ (if cfg_leftTable_enabled then [LeftTable] else []))
    ++ (if cfg_rightTable_enabled then [RightTable] else []).

End MoreConventions.

(** The number of [intersects] calls of a trace. *)
Definition isTest (ev : Event) : bool :=
  match ev with
  | EvIntersects _ _ _ => true
  | _ => false
  end.

Definition tests (tr : list Event) : nat := length (filter isTest tr).

(** The pair of the first call comes no later than the pair of the second
    in the order of the two loops: smaller [i] first, then smaller [j]. *)
Definition visitedBefore (x y : Event) : Prop :=
  match owner x, owner y with
  | Some (i, j), Some (i', j') => i < i' \/ (i = i' /\ j <= j')
  | _, _ => False
  end.

(** The number of listeners whose guard is still [false]. *)
Definition unspent (l : list bool) : nat := length (filter negb l).

(** * Theorems *)

(** ** GameState *)

Lemma increaseScore_streak (amount : Z) (s : GameState) :
  catsReturnedinARow (increaseScore amount s)
  = (if (catsReturnedinARow s + 1 >? 5)%Z then 0 else catsReturnedinARow s + 1)%Z
  /\ lives (increaseScore amount s)
     = (if (catsReturnedinARow s + 1 >? 5)%Z then lives s + 1 else lives s)%Z
  /\ score (increaseScore amount s) = (score s + amount)%Z.
Proof.
  unfold increaseScore, set_catsReturnedinARow, catsReturnedinARow, lives,
    score, gainLife.
  destruct (_catsReturnedinARow s + 1 >? 5)%Z; simpl; auto.
Qed.

Lemma loseLife_effect (s : GameState) :
  catsReturnedinARow (loseLife s) = 0%Z
  /\ lives (loseLife s) = (lives s - 1)%Z
  /\ score (loseLife s) = score s.
Proof. unfold loseLife; simpl; auto. Qed.

Lemma gainLife_effect (s : GameState) :
  catsReturnedinARow (gainLife s) = catsReturnedinARow s
  /\ lives (gainLife s) = (lives s + 1)%Z
  /\ score (gainLife s) = score s.
Proof. unfold gainLife; simpl; auto. Qed.

(** The first five of a run of [increaseScore] calls only count. *)
Lemma streak_counts_to_five (n : nat) :
  n <= 5 ->
  let s := applyOps (repeat (OpIncreaseScore 1) n) newGameState in
  lives s = 3%Z /\ catsReturnedinARow s = Z.of_nat n.
Proof.
  intros Hn.
  do 6 (destruct n as [|n]; [vm_compute; auto|]).
  lia.
Qed.

(** C5: from a fresh GameState six [increaseScore(1)] calls in a row leave
    four lives and a streak of zero; every [increaseScore] adds one to the
    streak, or grants a life and clears the streak when that would exceed
    five; every [loseLife] clears the streak and takes exactly one life. *)
Theorem streak_rule :
  lives (applyOps (repeat (OpIncreaseScore 1) 6) newGameState) = 4%Z
  /\ catsReturnedinARow (applyOps (repeat (OpIncreaseScore 1) 6) newGameState) = 0%Z
  /\ (forall amount s,
         (catsReturnedinARow s + 1 <= 5 ->
          catsReturnedinARow (increaseScore amount s) = catsReturnedinARow s + 1
          /\ lives (increaseScore amount s) = lives s)
         /\ (catsReturnedinARow s + 1 > 5 ->
             catsReturnedinARow (increaseScore amount s) = 0
             /\ lives (increaseScore amount s) = lives s + 1))%Z
  /\ (forall s,
         loseLife s
         = mkGameState (_lives (set_catsReturnedinARow 0 s) - 1)
                       (_score s) 0
         /\ catsReturnedinARow (loseLife s) = 0
         /\ lives (loseLife s) = lives s - 1)%Z.
Proof.
  split; [reflexivity|].
  split; [reflexivity|].
  split.
  - intros amount s.
    destruct (increaseScore_streak amount s) as (Hc & Hl & _).
    split; intros H.
    + assert (E : (catsReturnedinARow s + 1 >? 5)%Z = false) by lia.
      rewrite E in Hc, Hl. auto.
    + assert (E : (catsReturnedinARow s + 1 >? 5)%Z = true) by lia.
      rewrite E in Hc, Hl. auto.
  - intros s. split; [reflexivity|].
    destruct (loseLife_effect s) as (Hc & Hl & _). auto.
Qed.

(** The copy of the class in [src/game/store.ts] has no streak: there six
    calls leave the three lives untouched. *)
Lemma GameStore_has_no_streak :
  GameStore.lives
    (fold_left (fun s _ => GameStore.increaseScore 1 s) (seq 0 6)
               GameStore.newGameState) = 3%Z.
Proof. reflexivity. Qed.

Lemma applyOp_score (op : StateOp) (s : GameState) :
  score (applyOp op s)
  = match op with
    | OpIncreaseScore amount => (score s + amount)%Z
    | _ => score s
    end.
Proof.
  destruct op; simpl.
  - apply increaseScore_streak.
  - apply loseLife_effect.
  - apply gainLife_effect.
Qed.

Lemma applyOps_cons (op : StateOp) (ops : list StateOp) (s : GameState) :
  applyOps (op :: ops) s = applyOps ops (applyOp op s).
Proof. reflexivity. Qed.

Lemma score_monotone (ops : list StateOp) :
  Forall nonNegative ops ->
  forall s, (score s <= score (applyOps ops s))%Z.
Proof.
  induction 1 as [|op ops Hop _ IH]; intros s.
  - simpl. lia.
  - rewrite applyOps_cons.
    specialize (IH (applyOp op s)).
    rewrite applyOp_score in IH.
    destruct op; simpl in Hop; lia.
Qed.

Lemma scoreHistory_head (ops : list StateOp) (s : GameState) :
  exists rest, scoreHistory ops s = score s :: rest.
Proof. destruct ops; simpl; eauto. Qed.

Lemma scoreHistory_sorted (ops : list StateOp) :
  Forall nonNegative ops ->
  forall s, Sorted Z.le (scoreHistory ops s).
Proof.
  induction 1 as [|op ops Hop _ IH]; intros s; simpl.
  - repeat constructor.
  - constructor; [apply IH|].
    destruct (scoreHistory_head ops (applyOp op s)) as [rest ->].
    constructor. rewrite applyOp_score.
    destruct op; simpl in Hop; lia.
Qed.

(** C9, as the code has it: [increaseScore] adds its argument whatever its
    sign, so the score never decreases along a sequence of operations whose
    [increaseScore] amounts are not negative; [loseLife] and [gainLife] leave
    the score alone.  The same holds for the class in [src/game/store.ts]. *)
Theorem score_never_decreases_for_nonnegative_amounts :
  forall ops, Forall nonNegative ops ->
  forall s,
    (score s <= score (applyOps ops s))%Z
    /\ Sorted Z.le (scoreHistory ops s)
    /\ score (loseLife s) = score s
    /\ score (gainLife s) = score s
    /\ (forall amount t, 0 <= amount ->
          GameStore.score t <= GameStore.score (GameStore.increaseScore amount t))%Z.
Proof.
  intros ops Hops s.
  split; [apply score_monotone; assumption|].
  split; [apply scoreHistory_sorted; assumption|].
  split; [apply loseLife_effect|].
  split; [apply gainLife_effect|].
  intros amount t Ha. unfold GameStore.increaseScore, GameStore.score. simpl. lia.
Qed.

Lemma score_never_decreases_witness :
  Forall nonNegative [OpIncreaseScore 2; OpLoseLife; OpGainLife; OpIncreaseScore 0]
  /\ (score newGameState
      <= score (applyOps [OpIncreaseScore 2; OpLoseLife; OpGainLife; OpIncreaseScore 0]
                         newGameState))%Z.
Proof.
  assert (H : Forall nonNegative
                [OpIncreaseScore 2; OpLoseLife; OpGainLife; OpIncreaseScore 0]).
  { repeat constructor; simpl; lia. }
  split; [exact H|].
  exact (proj1 (score_never_decreases_for_nonnegative_amounts _ H newGameState)).
Defined.

(** C9 as stated fails: a negative amount lowers the score. *)
Lemma increaseScore_negative_amount_lowers_score :
  (score (applyOps [OpIncreaseScore (-1)] newGameState) < score newGameState)%Z
  /\ (GameStore.score (GameStore.increaseScore (-1) GameStore.newGameState)
      < GameStore.score GameStore.newGameState)%Z.
Proof. split; vm_compute; reflexivity. Qed.

(** ** Passes and loops *)

Lemma andThen_run (p q : Pass) (w : World) :
  (p >> q) w = (fst (q (fst (p w))), snd (p w) ++ snd (q (fst (p w)))).
Proof.
  unfold andThen. destruct (p w) as [w1 t1]. simpl.
  destruct (q w1) as [w2 t2]. reflexivity.
Qed.

Lemma for_cons {A : Type} (a : A) (l : list A) (body : A -> Pass) (w : World) :
  for_ (a :: l) body w
  = (fst (for_ l body (fst (body a w))),
     snd (body a w) ++ snd (for_ l body (fst (body a w)))).
Proof. simpl. apply andThen_run. Qed.

Lemma for_app {A : Type} (l1 l2 : list A) (body : A -> Pass) (w : World) :
  for_ (l1 ++ l2) body w
  = (fst (for_ l2 body (fst (for_ l1 body w))),
     snd (for_ l1 body w) ++ snd (for_ l2 body (fst (for_ l1 body w)))).
Proof.
  revert w. induction l1 as [|a l1 IH]; intros w.
  - simpl. destruct (for_ l2 body w). reflexivity.
  - rewrite <- app_comm_cons, !for_cons, IH. simpl.
    rewrite app_assoc. reflexivity.
Qed.

(** A loop keeps what every iteration keeps, and makes only calls that some
    iteration makes. *)
Lemma for_invariant {A : Type} (P : World -> Prop) (Q : Event -> Prop)
      (l : list A) (body : A -> Pass) :
  (forall a w, In a l -> P w -> P (fst (body a w)) /\ Forall Q (snd (body a w))) ->
  forall w, P w -> P (fst (for_ l body w)) /\ Forall Q (snd (for_ l body w)).
Proof.
  induction l as [|a l IH]; intros Hbody w Hw.
  - simpl. auto.
  - rewrite for_cons. simpl.
    destruct (Hbody a w (or_introl eq_refl) Hw) as [Hw1 Ht1].
    destruct (IH (fun b v Hb => Hbody b v (or_intror Hb)) _ Hw1) as [Hw2 Ht2].
    split; [assumption|]. apply Forall_app. auto.
Qed.

Lemma for_keeps {A : Type} (P : World -> Prop) (l : list A) (body : A -> Pass) :
  (forall a w, In a l -> P w -> P (fst (body a w))) ->
  forall w, P w -> P (fst (for_ l body w)).
Proof.
  intros Hbody w Hw.
  apply (for_invariant P (fun _ => True) l body); [|assumption].
  intros a v Ha Hv. split; [auto|].
  apply Forall_forall. auto.
Qed.

Lemma for_calls_only {A : Type} (Q : Event -> Prop) (l : list A) (body : A -> Pass) :
  (forall a w, In a l -> Forall Q (snd (body a w))) ->
  forall w, Forall Q (snd (for_ l body w)).
Proof.
  intros Hbody w.
  apply (for_invariant (fun _ => True) Q l body); auto.
Qed.

(** A loop whose iterations do nothing does nothing. *)
Lemma for_idle {A : Type} (l : list A) (body : A -> Pass) :
  (forall a w, In a l -> body a w = (w, [])) ->
  forall w, for_ l body w = (w, []).
Proof.
  induction l as [|a l IH]; intros Hbody w.
  - reflexivity.
  - rewrite for_cons, (Hbody a w (or_introl eq_refl)). simpl.
    rewrite IH; [reflexivity|]. intros b v Hb. apply Hbody. right. assumption.
Qed.

(** A loop of single calls reports one call per element, in order. *)
Lemma for_calls {A : Type} (l : list A) (h : A -> World -> World)
      (ev : A -> Event) (w : World) :
  snd (for_ l (fun a => call (h a) (ev a)) w) = map ev l.
Proof.
  revert w. induction l as [|a l IH]; intros w.
  - reflexivity.
  - rewrite for_cons. simpl. rewrite IH. reflexivity.
Qed.

Lemma set_listeners_same (w : World) : set_listeners (listeners w) w = w.
Proof. destruct w; reflexivity. Qed.

Section GameFacts.

Context {Delta Hitbox : Type} {ext : Externals Delta Hitbox}.

(** *** addEntity *)

(** C4, as the code has it: [addEntity(e)] first calls [e.spawn(this)], on
    the world as it was when [addEntity] was called; then it gives [e] the
    value the counter has after the spawn and increments the counter; then
    it appends [e] to the collection left by the spawn.  Nothing else
    changes. *)
Theorem addEntity_spawns_then_numbers_then_appends :
  forall (e : Entity) (w : World),
    let spawned := Entity_spawn e w in
    let w' := fst (addEntity e w) in
    snd (addEntity e w) = [EvSpawn e; EvAssignId e (count spawned); EvPush e]
    /\ entityId w' e = Some (count spawned)
    /\ count w' = (count spawned + 1)%Z
    /\ entities w' = entities spawned ++ [e]
    /\ (forall x, x <> e -> entityId w' x = entityId spawned x)
    /\ deleted w' = deleted spawned
    /\ state w' = state spawned
    /\ listeners w' = listeners spawned.
Proof.
  intros e w. simpl.
  rewrite Nat.eqb_refl.
  repeat split; try reflexivity.
  intros x Hx. apply Nat.eqb_neq in Hx. rewrite Hx. reflexivity.
Qed.

(** *** Game over *)

Lemma update_when_gameOver (deltaMS : Delta) (w : World) :
  isGameOver w = true ->
  update deltaMS w = (set_listeners (listeners w ++ [false]) w, []).
Proof. intros H. unfold update. rewrite H. reflexivity. Qed.

Lemma keyup_other_key (code : string) (w : World) :
  code <> "Space"%string -> keyup code w = (w, []).
Proof.
  intros Hc. unfold keyup. apply for_idle. intros k v _.
  unfold listener. apply String.eqb_neq in Hc. rewrite Hc. reflexivity.
Qed.

(** C7: while [lives <= 0], [update()] calls nothing (no update, destroy,
    collision or late-update call) and changes nothing but the list of
    keyup listeners, so the collection is not compacted either; and as the
    state is untouched this goes on, call after call, for as long as no
    Space keyup arrives. *)
Theorem gameOver_suspends_the_frame :
  forall (w : World),
    isGameOver w = true ->
    (forall deltaMS,
        update deltaMS w = (set_listeners (listeners w ++ [false]) w, []))
    /\ (forall inputs,
           Forall notSpaceKeyUp inputs ->
           run inputs w
           = (set_listeners (listeners w ++ repeat false (ticks inputs)) w, [])
           /\ isGameOver (fst (run inputs w)) = true).
Proof.
  intros w Hover. split.
  - intros deltaMS. apply update_when_gameOver. assumption.
  - intros inputs Hin.
    assert (E : run inputs w
                = (set_listeners (listeners w ++ repeat false (ticks inputs)) w, [])).
    { revert w Hover. induction Hin as [|i inputs Hi _ IH]; intros w Hover.
      - simpl. rewrite app_nil_r, set_listeners_same. reflexivity.
      - unfold run. rewrite for_cons. fold (run inputs).
        destruct i as [deltaMS|code]; simpl step.
        + rewrite (update_when_gameOver deltaMS w Hover). simpl fst. simpl snd.
          rewrite IH by exact Hover. simpl.
          unfold set_listeners. simpl.
          rewrite <- app_assoc. reflexivity.
        + rewrite (keyup_other_key code w Hi). simpl fst. simpl snd.
          rewrite IH by exact Hover. reflexivity. }
    rewrite E. split; [reflexivity|exact Hover].
Qed.

End GameFacts.

Lemma gameOver_suspends_the_frame_witness :
  isGameOver lostGame = true
  /\ run (ext := quiet) [Tick 16%Z; KeyUp "Enter"; Tick 17%Z] lostGame
     = (set_listeners [false; false] lostGame, []).
Proof.
  assert (H : isGameOver lostGame = true) by reflexivity.
  split; [exact H|].
  refine (proj1 (proj2 (gameOver_suspends_the_frame (ext := quiet) lostGame H)
            [Tick 16%Z; KeyUp "Enter"%string; Tick 17%Z] _)).
  repeat constructor; simpl; discriminate.
Defined.

(** C4 as stated fails: when the spawn of entity 0 adds entity 1, the code
    numbers entity 1 first, the specified order numbers entity 0 first. *)
Lemma addEntity_does_not_number_before_spawning :
  addEntity (ext := nesting) 0 newGame
  <> addEntity_specified (ext := nesting) 0 newGame.
Proof.
  intros H.
  apply (f_equal (fun r => entityId (fst r) 0)) in H.
  vm_compute in H. discriminate H.
Qed.

Example addEntity_nested_spawn :
  let w := fst (addEntity (ext := nesting) 0 newGame) in
  entities w = [1; 0] /\ entityId w 1 = Some 1%Z /\ entityId w 0 = Some 2%Z
  /\ snd (addEntity (ext := nesting) 0 newGame)
     = [EvSpawn 0; EvAssignId 0 2; EvPush 0].
Proof. vm_compute. auto. Qed.

(** C2: two [update()] calls while the game is over register two listeners,
    each with a guard of its own, and one Space keyup runs the reset twice:
    the six entities of the first rebuild are destroyed again and replaced,
    and twelve identifiers are used up. *)
Theorem one_keyup_resets_once_per_gameOver_update :
  isGameOver lostGame = true
  /\ resets (snd (run (ext := quiet) [Tick 16%Z; Tick 16%Z; KeyUp "Space"] lostGame)) = 2
  /\ entities lostGame = [0; 1; 2; 3; 4; 5]
  /\ entities (fst (run (ext := quiet) [Tick 16%Z; Tick 16%Z; KeyUp "Space"] lostGame))
     = [12; 13; 14; 15; 16; 17]
  /\ count lostGame = 7%Z
  /\ count (fst (run (ext := quiet) [Tick 16%Z; Tick 16%Z; KeyUp "Space"] lostGame))
     = 19%Z
  /\ resets (snd (run (ext := quiet) [Tick 16%Z; KeyUp "Space"] lostGame)) = 1.
Proof. vm_compute. repeat split; reflexivity. Qed.

(** C3: entity 0 is marked deleted by the first callback of the pass, and
    the pass goes on to test and notify the pair (0, 2): [e1.deleted] is read
    once, before the inner loop. *)
Theorem deleted_outer_entity_is_still_paired :
  let w := worldOf [0; 1; 2] in
  deleted w 0 = false
  /\ deleted (fst (collide (ext := caught) 0 1 0 1 w)) 0 = true
  /\ snd (detectCollisions (ext := caught) w)
     = [EvIntersects 0 1 true; EvCollidedWith 0 1; EvCollidedWith 1 0]
       ++ [EvIntersects 0 2 true; EvCollidedWith 0 2; EvCollidedWith 2 0]
       ++ [EvIntersects 1 2 true; EvCollidedWith 1 2; EvCollidedWith 2 1]
  /\ filter (involves 0)
            (skipn 3 (snd (detectCollisions (ext := caught) w)))
     = [EvIntersects 0 2 true; EvCollidedWith 0 2; EvCollidedWith 2 0]
  /\ isGameOver w = false
  /\ snd (update (ext := caught) 16%Z w)
     = [EvUpdate 0; EvUpdate 1; EvUpdate 2]
       ++ snd (detectCollisions (ext := caught) w)
       ++ [EvLateUpdate 0; EvLateUpdate 1; EvLateUpdate 2].
Proof. vm_compute. repeat split; reflexivity. Qed.

(** ** Identifiers *)

Lemma assignedIds_app (t1 t2 : list Event) :
  assignedIds (t1 ++ t2) = assignedIds t1 ++ assignedIds t2.
Proof. apply flat_map_app. Qed.

Lemma StronglySorted_app (l1 l2 : list Z) :
  StronglySorted Z.lt l1 -> StronglySorted Z.lt l2 ->
  (forall x y, In x l1 -> In y l2 -> (x < y)%Z) ->
  StronglySorted Z.lt (l1 ++ l2).
Proof.
  induction 1 as [|a l1 Hl1 IH Ha]; intros H2 Hlt; simpl.
  - assumption.
  - constructor.
    + apply IH; [assumption|]. intros x y Hx Hy. apply Hlt; simpl; auto.
    + apply Forall_app. split; [assumption|].
      apply Forall_forall. intros y Hy. apply Hlt; simpl; auto.
Qed.

Lemma StronglySorted_lt_NoDup (l : list Z) :
  StronglySorted Z.lt l -> NoDup l.
Proof.
  induction 1 as [|a l _ IH Ha]; constructor; [|assumption].
  intros Hin. rewrite Forall_forall in Ha. specialize (Ha a Hin). lia.
Qed.

Lemma numbersUpward_skip : numbersUpward skip.
Proof.
  intros w. simpl. split; [lia|]. split; constructor.
Qed.

Lemma numbersUpward_andThen (p q : Pass) :
  numbersUpward p -> numbersUpward q -> numbersUpward (p >> q).
Proof.
  intros Hp Hq w. rewrite andThen_run. simpl.
  destruct (Hp w) as (Hc1 & Hs1 & Hb1).
  destruct (Hq (fst (p w))) as (Hc2 & Hs2 & Hb2).
  rewrite assignedIds_app.
  rewrite Forall_forall in Hb1, Hb2.
  split; [lia|]. split.
  - apply StronglySorted_app; [assumption|assumption|].
    intros x y Hx Hy. specialize (Hb1 x Hx). specialize (Hb2 y Hy). lia.
  - apply Forall_app. split; apply Forall_forall; intros x Hx.
    + specialize (Hb1 x Hx). lia.
    + specialize (Hb2 x Hx). lia.
Qed.

Lemma numbersUpward_for {A : Type} (l : list A) (body : A -> Pass) :
  (forall a, numbersUpward (body a)) -> numbersUpward (for_ l body).
Proof.
  intros Hbody. induction l as [|a l IH]; simpl.
  - apply numbersUpward_skip.
  - apply numbersUpward_andThen; auto.
Qed.

(** A pass that may depend on the world it starts in. *)
Lemma numbersUpward_from (f : World -> Pass) :
  (forall v, numbersUpward (f v)) -> numbersUpward (fun w => f w w).
Proof. intros H w. apply (H w w). Qed.

Lemma numbersUpward_call (h : World -> World) (ev : Event) :
  (forall w, (count w <= count (h w))%Z) ->
  assignedIds [ev] = [] ->
  numbersUpward (call h ev).
Proof.
  intros Hh Hev w. unfold call. simpl fst. simpl snd. rewrite Hev.
  split; [apply Hh|]. split; constructor.
Qed.

Lemma numbersUpward_lift (f : World -> World) :
  (forall w, (count w <= count (f w))%Z) -> numbersUpward (lift f).
Proof.
  intros Hf w. unfold lift. simpl.
  split; [apply Hf|]. split; constructor.
Qed.

Section Identifiers.

Context {Delta Hitbox : Type} {ext : Externals Delta Hitbox}.

Lemma addEntity_numbersUpward (e : Entity) :
  (forall x w, (count w <= count (Entity_spawn x w))%Z) ->
  numbersUpward (addEntity e).
Proof.
  intros Hs w. simpl. specialize (Hs e w).
  split; [lia|]. split.
  - repeat constructor.
  - repeat constructor; lia.
Qed.

Lemma addEntities_length (es : list Entity) (w : World) :
  length (assignedIds (snd (addEntities es w))) = length es.
Proof.
  revert w. induction es as [|e es IH]; intros w.
  - reflexivity.
  - unfold addEntities. rewrite for_cons. fold (addEntities es).
    cbn [snd]. rewrite assignedIds_app, length_app, IH. reflexivity.
Qed.

(** When no spawn adds entities the identifiers are consecutive. *)
Lemma addEntities_consecutive (es : list Entity) (w : World) :
  spawnAddsNothing ->
  assignedIds (snd (addEntities es w))
  = map (fun k => (count w + Z.of_nat k)%Z) (seq 0 (length es)).
Proof.
  intros Hs. revert w. induction es as [|e es IH]; intros w.
  - reflexivity.
  - unfold addEntities. rewrite for_cons. fold (addEntities es).
    cbn [snd fst]. rewrite assignedIds_app, IH. simpl.
    rewrite (Hs e w). f_equal; [f_equal; lia|].
    rewrite <- seq_shift, map_map. apply map_ext. intros k. lia.
Qed.

Section PrivateCounter.

Hypothesis private : counterIsPrivate.

Lemma build_numbersUpward (b : Blueprint) : numbersUpward (build b).
Proof.
  intros w.
  exact (addEntity_numbersUpward (allocated w) (proj1 private)
           (snd (newEntity b w))).
Qed.

Lemma initEntities_numbersUpward : numbersUpward initEntities.
Proof.
  unfold initEntities.
  repeat apply numbersUpward_andThen;
    try apply build_numbersUpward;
    match goal with
    | |- numbersUpward (if ?c then _ else _) =>
        destruct c; [apply build_numbersUpward|apply numbersUpward_skip]
    end.
Qed.

Lemma detectCollisions_numbersUpward : numbersUpward detectCollisions.
Proof.
  destruct private as (_ & _ & _ & _ & Hc).
  apply (numbersUpward_from
           (fun v => for_ (seq 0 (length (entities v))) (outerBody (entities v)))).
  intros v. apply numbersUpward_for. intros i w.
  unfold outerBody.
  destruct (nth_error (entities v) i) as [e1|]; [|apply numbersUpward_skip].
  destruct (deleted w e1); [apply numbersUpward_skip|].
  apply numbersUpward_for. clear w. intros j w.
  unfold innerBody.
  destruct (nth_error (entities v) j) as [e2|]; [|apply numbersUpward_skip].
  destruct (deleted w e2); [apply numbersUpward_skip|].
  unfold collide.
  destruct (intersects _ _ w); [|apply (numbersUpward_skip w)].
  simpl. split; [|split; constructor].
  etransitivity; [apply Hc|apply Hc].
Qed.

Lemma update_numbersUpward (deltaMS : Delta) : numbersUpward (update deltaMS).
Proof.
  destruct private as (_ & Hu & Hl & Hd & _).
  intros w. unfold update.
  destruct (isGameOver w).
  - simpl. split; [lia|]. split; constructor.
  - revert w. unfold frame.
    repeat apply numbersUpward_andThen.
    + apply (numbersUpward_from (fun v => for_ (entities v) _)).
      intros v. apply numbersUpward_for. intros e.
      apply numbersUpward_call; [apply Hu|reflexivity].
    + apply (numbersUpward_from
               (fun v => for_ (filter (deleted v) (entities v)) _)).
      intros v. apply numbersUpward_for. intros e.
      apply numbersUpward_call; [apply Hd|reflexivity].
    + apply numbersUpward_lift. intros w. simpl. lia.
    + apply detectCollisions_numbersUpward.
    + apply (numbersUpward_from (fun v => for_ (entities v) _)).
      intros v. apply numbersUpward_for. intros e.
      apply numbersUpward_call; [apply Hl|reflexivity].
Qed.

Lemma reset_numbersUpward : numbersUpward reset.
Proof.
  destruct private as (_ & _ & _ & Hd & _).
  unfold reset.
  apply numbersUpward_andThen;
    [apply numbersUpward_andThen; [apply numbersUpward_andThen|]|].
  - apply (numbersUpward_from (fun v => for_ (seq 0 (length (entities v))) _)).
    intros v. apply numbersUpward_for. intros k w.
    destruct (nth_error (entities w) k) as [e|].
    + apply numbersUpward_call; [apply Hd|reflexivity].
    + apply (numbersUpward_skip w).
  - apply numbersUpward_lift. intros w. simpl. lia.
  - apply numbersUpward_call; [|reflexivity]. intros w. simpl. lia.
  - apply initEntities_numbersUpward.
Qed.

Lemma keyup_numbersUpward (code : string) : numbersUpward (keyup code).
Proof.
  apply (numbersUpward_from (fun v => for_ (seq 0 (length (listeners v))) _)).
  intros v. apply numbersUpward_for. intros k w.
  unfold listener.
  destruct (String.eqb code "Space" && negb (nth k (listeners w) true)).
  - revert w. apply numbersUpward_andThen; [apply reset_numbersUpward|].
    apply numbersUpward_lift. intros w. simpl. lia.
  - apply (numbersUpward_skip w).
Qed.

Lemma run_numbersUpward (inputs : list (Input Delta)) :
  numbersUpward (run inputs).
Proof.
  apply numbersUpward_for. intros [deltaMS|code].
  - apply update_numbersUpward.
  - apply keyup_numbersUpward.
Qed.

Lemma addEntities_numbersUpward (es : list Entity) :
  numbersUpward (addEntities es).
Proof.
  apply numbersUpward_for. intros e.
  apply addEntity_numbersUpward. apply private.
Qed.

(** The values the assignments [e.entityId = this.count] of a sequence of
    [addEntity] calls on a new world write, in the order of the
    assignments made by these calls themselves: strictly increasing, from
    1, and consecutive when no spawn adds entities of its own; the same
    over sessions of frames and keyups after [setup()]. *)
Lemma assignments_number_upward :
  forall (es : list Entity),
    let ids := assignedIds (snd (addEntities es newGame)) in
    length ids = length es
    /\ StronglySorted Z.lt ids
    /\ NoDup ids
    /\ Forall (fun id => (1 <= id)%Z) ids
    /\ (spawnAddsNothing -> ids = map Z.of_nat (seq 1 (length es)))
    /\ (forall inputs more,
           StronglySorted Z.lt
             (assignedIds
                (snd ((initEntities >> run inputs >> addEntities more) newGame)))).
Proof.
  intros es ids.
  destruct (addEntities_numbersUpward es newGame) as (_ & Hs & Hb).
  split; [apply addEntities_length|].
  split; [exact Hs|].
  split; [apply StronglySorted_lt_NoDup; exact Hs|].
  split.
  - revert Hb. apply Forall_impl. simpl. intros id H. lia.
  - split.
    + intros Hn. unfold ids. rewrite (addEntities_consecutive es newGame Hn).
      rewrite <- seq_shift, map_map. apply map_ext. intros k. simpl count. lia.
    + intros inputs more.
      apply (numbersUpward_andThen
               (initEntities >> run inputs) (addEntities more)).
      * apply numbersUpward_andThen;
          [apply initEntities_numbersUpward|apply run_numbersUpward].
      * apply addEntities_numbersUpward.
Qed.

End PrivateCounter.

End Identifiers.

Lemma quiet_counterIsPrivate : counterIsPrivate (ext := quiet).
Proof. unfold counterIsPrivate. simpl. repeat split; intros; lia. Qed.

(** ** The identifiers the entities hold *)

Lemma wellNumbered_newGame : wellNumbered newGame.
Proof.
  unfold wellNumbered. simpl. split; [lia|]. split; intros; congruence.
Qed.

Lemma numberedFrom_refl (w : World) : wellNumbered w -> numberedFrom w w.
Proof. intros H. split; [exact H|]. split; [lia|]. auto. Qed.

Lemma numberedFrom_trans (a b c : World) :
  numberedFrom a b -> numberedFrom b c -> numberedFrom a c.
Proof.
  intros (Hb & Hab & Hidb) (Hc & Hbc & Hidc).
  split; [exact Hc|]. split; [lia|].
  intros x id Hx. destruct (Hidc x id Hx) as [H|H].
  - exact (Hidb x id H).
  - right. lia.
Qed.

(** A step that touches neither the counter nor an identifier. *)
Lemma numberedFrom_same (w w' : World) :
  count w' = count w -> (forall x, entityId w' x = entityId w x) ->
  wellNumbered w -> numberedFrom w w'.
Proof.
  intros Hc Hid (H1 & H2 & H3).
  split; [|split; [lia|]].
  - split; [lia|]. split.
    + intros x id Hx. rewrite Hid in Hx. rewrite Hc. eauto.
    + intros x y id Hx Hy. rewrite Hid in Hx, Hy. eauto.
  - intros x id Hx. left. rewrite <- Hid. exact Hx.
Qed.

Lemma numberedFrom_neverReused (w w' : World) :
  wellNumbered w -> numberedFrom w w' -> neverReused w w'.
Proof.
  intros (_ & H2 & H3) (_ & _ & Hid) x y id Hx Hy.
  destruct (Hid y id Hy) as [H|H].
  - exact (H3 x y id Hx H).
  - specialize (H2 x id Hx). lia.
Qed.

Lemma keepsNumbering_skip : keepsNumbering skip.
Proof. intros w H. apply numberedFrom_refl, H. Qed.

Lemma keepsNumbering_andThen (p q : Pass) :
  keepsNumbering p -> keepsNumbering q -> keepsNumbering (p >> q).
Proof.
  intros Hp Hq w H. rewrite andThen_run. cbn [fst].
  pose proof (Hp w H) as H1.
  apply (numberedFrom_trans _ _ _ H1). apply Hq. exact (proj1 H1).
Qed.

Lemma keepsNumbering_for {A : Type} (l : list A) (body : A -> Pass) :
  (forall a, keepsNumbering (body a)) -> keepsNumbering (for_ l body).
Proof.
  intros Hbody. induction l as [|a l IH]; simpl.
  - apply keepsNumbering_skip.
  - apply keepsNumbering_andThen; auto.
Qed.

Lemma keepsNumbering_from (f : World -> Pass) :
  (forall v, keepsNumbering (f v)) -> keepsNumbering (fun w => f w w).
Proof. intros H w. apply (H w w). Qed.

Lemma keepsNumbering_call (h : World -> World) (ev : Event) :
  numbersByAddingOnly h -> keepsNumbering (call h ev).
Proof. intros Hh w Hw. exact (Hh w Hw). Qed.

Lemma keepsNumbering_lift (f : World -> World) :
  (forall w, count (f w) = count w) ->
  (forall w x, entityId (f w) x = entityId w x) ->
  keepsNumbering (lift f).
Proof.
  intros Hc Hid w Hw. apply numberedFrom_same; [apply Hc|apply Hid|exact Hw].
Qed.

Lemma nth_error_consecutive (n k : nat) :
  k < n -> nth_error (map Z.of_nat (seq 1 n)) k = Some (Z.of_nat (S k)).
Proof.
  intros Hk.
  rewrite (nth_error_nth' _ 0%Z) by (rewrite length_map, length_seq; exact Hk).
  f_equal. change 0%Z with (Z.of_nat 0). rewrite map_nth, seq_nth by exact Hk.
  reflexivity.
Qed.

Section HeldIdentifiers.

Context {Delta Hitbox : Type} {ext : Externals Delta Hitbox}.

(** One call of [addEntity]: the identifier is the counter as [spawn]
    leaves it. *)
Lemma addEntity_numbers (e : Entity) (w : World) :
  numbersByAddingOnly (Entity_spawn e) -> wellNumbered w ->
  let id := count (Entity_spawn e w) in
  snd (addEntity e w) = [EvSpawn e; EvAssignId e id; EvPush e]
  /\ entityId (fst (addEntity e w)) e = Some id
  /\ (1 <= id)%Z
  /\ (count w <= id)%Z
  /\ count (fst (addEntity e w)) = (id + 1)%Z
  /\ (forall x old, entityId w x = Some old -> (old < id)%Z)
  /\ (forall x, entityId (fst (addEntity e w)) x = Some id -> x = e)
  /\ numberedFrom w (fst (addEntity e w)).
Proof.
  intros Hs Hw id.
  destruct (Hs w Hw) as ((H1 & H2 & H3) & Hc & Hnew).
  destruct Hw as (Hw1 & Hw2 & Hw3).
  fold id in H1, H2, Hc.
  split; [reflexivity|].
  split; [cbn; rewrite Nat.eqb_refl; reflexivity|].
  split; [lia|]. split; [lia|].
  split; [reflexivity|].
  split; [intros x old Hx; specialize (Hw2 x old Hx); lia|].
  split.
  - intros x. cbn. destruct (Nat.eqb_spec x e) as [Heq|Hne]; [intros _; exact Heq|].
    intros Hx. specialize (H2 x _ Hx). lia.
  - split; [|split].
    + split; [cbn; fold id; lia|]. split.
      * intros x i. cbn. fold id. destruct (Nat.eqb x e).
        -- intros Hx. injection Hx as <-. lia.
        -- intros Hx. specialize (H2 x i Hx). lia.
      * intros x y i. cbn. fold id.
        destruct (Nat.eqb_spec x e) as [Hxe|Hxe], (Nat.eqb_spec y e) as [Hye|Hye].
        -- intros _ _. congruence.
        -- intros Hx Hy. injection Hx as <-. specialize (H2 y _ Hy). lia.
        -- intros Hx Hy. injection Hy as <-. specialize (H2 x _ Hx). lia.
        -- apply H3.
    + cbn. fold id. lia.
    + intros x i. cbn. fold id. destruct (Nat.eqb x e).
      * intros Hx. injection Hx as <-. right. exact Hc.
      * apply Hnew.
Qed.

Lemma addEntity_keepsNumbering (e : Entity) :
  numbersByAddingOnly (Entity_spawn e) -> keepsNumbering (addEntity e).
Proof. intros Hs w Hw. apply (addEntity_numbers e w Hs Hw). Qed.

Lemma newEntity_numbers (b : Blueprint) (w : World) :
  wellNumbered w -> numberedFrom w (snd (newEntity b w)).
Proof.
  intros (H1 & H2 & H3).
  split; [|split].
  - split; [exact H1|]. split.
    + intros x id. cbn. destruct (Nat.eqb x (allocated w)); [discriminate|].
      apply H2.
    + intros x y id. cbn.
      destruct (Nat.eqb x (allocated w)); [discriminate|].
      destruct (Nat.eqb y (allocated w)); [discriminate|].
      apply H3.
  - cbn. lia.
  - intros x id. cbn. destruct (Nat.eqb x (allocated w)); [discriminate|].
    intros Hx. left. exact Hx.
Qed.

Lemma build_keepsNumbering (b : Blueprint) :
  (forall e, numbersByAddingOnly (Entity_spawn e)) -> keepsNumbering (build b).
Proof.
  intros Hs w Hw.
  pose proof (newEntity_numbers b w Hw) as H0.
  apply (numberedFrom_trans _ _ _ H0).
  exact (addEntity_keepsNumbering (allocated w) (Hs _)
           (snd (newEntity b w)) (proj1 H0)).
Qed.

Lemma addEntities_cons (e : Entity) (es : list Entity) (w : World) :
  addEntities (e :: es) w
  = (fst (addEntities es (fst (addEntity e w))),
     snd (addEntity e w) ++ snd (addEntities es (fst (addEntity e w)))).
Proof. unfold addEntities. apply for_cons. Qed.

(** An entity that is not added again keeps its identifier. *)
Lemma addEntities_keeps_identifier (es : list Entity) :
  spawnKeepsIdentifiers ->
  forall w x id,
    ~ In x es -> entityId w x = Some id ->
    entityId (fst (addEntities es w)) x = Some id.
Proof.
  intros Hk. induction es as [|e es IH]; intros w x id Hx Hid.
  - exact Hid.
  - rewrite addEntities_cons. cbn [fst]. apply IH.
    + intros Hin. apply Hx. right. exact Hin.
    + cbn. destruct (Nat.eqb_spec x e) as [Heq|Hne].
      * exfalso. apply Hx. left. symmetry. exact Heq.
      * apply Hk. exact Hid.
Qed.

Section PrivateIdentifiers.

Hypothesis private : identifiersArePrivate.

Lemma addEntities_keepsNumbering (es : list Entity) :
  keepsNumbering (addEntities es).
Proof.
  apply keepsNumbering_for. intros e.
  apply addEntity_keepsNumbering. apply private.
Qed.

Lemma initEntities_keepsNumbering : keepsNumbering initEntities.
Proof.
  pose proof (proj1 private) as Hs.
  unfold initEntities.
  repeat apply keepsNumbering_andThen;
    try (apply build_keepsNumbering; exact Hs);
    match goal with
    | |- keepsNumbering (if ?c then _ else _) =>
        destruct c; [apply build_keepsNumbering; exact Hs
                    |apply keepsNumbering_skip]
    end.
Qed.

Lemma collide_keepsNumbering (i j : nat) (e1 e2 : Entity) :
  keepsNumbering (collide i j e1 e2).
Proof.
  destruct private as (_ & _ & _ & _ & Hc).
  intros w Hw. unfold collide.
  destruct (intersects _ _ w); cbn [fst].
  - pose proof (Hc (getHitboxFrom e1 w) (getHitboxFrom e2 w) w Hw) as H1.
    apply (numberedFrom_trans _ _ _ H1). apply Hc. exact (proj1 H1).
  - apply numberedFrom_refl. exact Hw.
Qed.

Lemma detectCollisions_keepsNumbering : keepsNumbering detectCollisions.
Proof.
  apply (keepsNumbering_from
           (fun v => for_ (seq 0 (length (entities v))) (outerBody (entities v)))).
  intros v. apply keepsNumbering_for. intros i w.
  unfold outerBody.
  destruct (nth_error (entities v) i) as [e1|]; [|apply (keepsNumbering_skip w)].
  destruct (deleted w e1); [apply (keepsNumbering_skip w)|].
  revert w. apply keepsNumbering_for. intros j w.
  unfold innerBody.
  destruct (nth_error (entities v) j) as [e2|]; [|apply (keepsNumbering_skip w)].
  destruct (deleted w e2); [apply (keepsNumbering_skip w)|].
  apply collide_keepsNumbering.
Qed.

Lemma update_keepsNumbering (deltaMS : Delta) : keepsNumbering (update deltaMS).
Proof.
  destruct private as (_ & Hu & Hl & Hd & _).
  intros w. unfold update.
  destruct (isGameOver w).
  - intros Hw. apply numberedFrom_same; [reflexivity|reflexivity|exact Hw].
  - revert w. unfold frame.
    repeat apply keepsNumbering_andThen.
    + apply (keepsNumbering_from (fun v => for_ (entities v) _)).
      intros v. apply keepsNumbering_for. intros e.
      apply keepsNumbering_call. apply Hu.
    + apply (keepsNumbering_from
               (fun v => for_ (filter (deleted v) (entities v)) _)).
      intros v. apply keepsNumbering_for. intros e.
      apply keepsNumbering_call. apply Hd.
    + apply keepsNumbering_lift; reflexivity.
    + apply detectCollisions_keepsNumbering.
    + apply (keepsNumbering_from (fun v => for_ (entities v) _)).
      intros v. apply keepsNumbering_for. intros e.
      apply keepsNumbering_call. apply Hl.
Qed.

Lemma reset_keepsNumbering : keepsNumbering reset.
Proof.
  destruct private as (_ & _ & _ & Hd & _).
  unfold reset.
  apply keepsNumbering_andThen;
    [apply keepsNumbering_andThen; [apply keepsNumbering_andThen|]|].
  - apply (keepsNumbering_from (fun v => for_ (seq 0 (length (entities v))) _)).
    intros v. apply keepsNumbering_for. intros k w.
    destruct (nth_error (entities w) k) as [e|].
    + apply keepsNumbering_call. apply Hd.
    + apply (keepsNumbering_skip w).
  - apply keepsNumbering_lift; reflexivity.
  - intros w Hw. apply numberedFrom_same; [reflexivity|reflexivity|exact Hw].
  - apply initEntities_keepsNumbering.
Qed.

Lemma keyup_keepsNumbering (code : string) : keepsNumbering (keyup code).
Proof.
  apply (keepsNumbering_from (fun v => for_ (seq 0 (length (listeners v))) _)).
  intros v. apply keepsNumbering_for. intros k w.
  unfold listener.
  destruct (String.eqb code "Space" && negb (nth k (listeners w) true)).
  - revert w. apply keepsNumbering_andThen; [apply reset_keepsNumbering|].
    apply keepsNumbering_lift; reflexivity.
  - apply (keepsNumbering_skip w).
Qed.

Lemma run_keepsNumbering (inputs : list (Input Delta)) :
  keepsNumbering (run inputs).
Proof.
  apply keepsNumbering_for. intros [deltaMS|code].
  - apply update_keepsNumbering.
  - apply keyup_keepsNumbering.
Qed.

(** The values a sequence of calls assigns, between the counter before and
    the counter after, in increasing order. *)
Lemma addEntities_assigns_upward (es : list Entity) :
  forall w, wellNumbered w ->
    let ids := assignedIds (snd (addEntities es w)) in
    length ids = length es
    /\ StronglySorted Z.lt ids
    /\ Forall (fun id => (count w <= id < count (fst (addEntities es w)))%Z) ids.
Proof.
  induction es as [|e es IH]; intros w Hw.
  - cbn. split; [reflexivity|]. split; constructor.
  - cbv zeta. rewrite addEntities_cons. cbn [fst snd].
    destruct (addEntity_numbers e w (proj1 private e) Hw)
      as (Ht & _ & _ & Hlo & Hc & _ & _ & Hn).
    destruct (IH _ (proj1 Hn)) as (Hlen & Hs & Hb).
    rewrite Ht. cbn [assignedIds flat_map app].
    fold (assignedIds (snd (addEntities es (fst (addEntity e w))))).
    rewrite Forall_forall in Hb.
    pose proof (addEntities_keepsNumbering es _ (proj1 Hn)) as (_ & Hup & _).
    split; [cbn [length]; rewrite Hlen; reflexivity|]. split.
    + constructor; [exact Hs|].
      apply Forall_forall. intros y Hy. specialize (Hb y Hy). lia.
    + constructor; [lia|].
      apply Forall_forall. intros y Hy. specialize (Hb y Hy). lia.
Qed.

(** The [k]-th call of a sequence: what its entity holds right after it. *)
Lemma addEntities_each (es : list Entity) :
  forall w, wellNumbered w ->
  forall k e, nth_error es k = Some e ->
    exists id,
      nth_error (assignedIds (snd (addEntities es w))) k = Some id
      /\ (count w <= id)%Z
      /\ entityId (fst (addEntities (firstn (S k) es) w)) e = Some id
      /\ (forall x, entityId (fst (addEntities (firstn (S k) es) w)) x = Some id ->
                    x = e)
      /\ (forall j x old,
             j <= k ->
             entityId (fst (addEntities (firstn j es) w)) x = Some old ->
             (old < id)%Z).
Proof.
  induction es as [|e0 es IH]; intros w Hw k e Hk.
  - destruct k; discriminate.
  - destruct (addEntity_numbers e0 w (proj1 private e0) Hw)
      as (Ht & Hid & _ & Hlo & Hc & Hold & Honly & Hn).
    rewrite addEntities_cons. cbn [snd]. rewrite Ht.
    cbn [assignedIds flat_map app].
    fold (assignedIds (snd (addEntities es (fst (addEntity e0 w))))).
    destruct k as [|k].
    + injection Hk as <-.
      exists (count (Entity_spawn e0 w)).
      split; [reflexivity|]. split; [exact Hlo|].
      cbn [firstn]. rewrite addEntities_cons. cbn [fst addEntities for_ skip].
      split; [exact Hid|]. split; [exact Honly|].
      intros j x old Hj. replace j with 0 by lia. cbn [firstn fst addEntities for_ skip].
      apply Hold.
    + cbn [nth_error] in Hk.
      destruct (IH _ (proj1 Hn) k e Hk) as (id & Hnth & Hlo' & Hheld & Honly' & Hold').
      exists id. cbn [nth_error].
      split; [exact Hnth|]. split; [lia|].
      cbn [firstn]. rewrite addEntities_cons. cbn [fst].
      split; [exact Hheld|]. split; [exact Honly'|].
      intros [|j] x old Hj.
      * cbn [firstn fst addEntities for_ skip]. intros Hx.
        specialize (Hold x old Hx). lia.
      * cbn [firstn]. rewrite addEntities_cons. cbn [fst].
        apply Hold'. lia.
Qed.

(** What the entities hold when the sequence has ended. *)
Lemma addEntities_final (es : list Entity) :
  spawnKeepsIdentifiers -> NoDup es ->
  forall w, wellNumbered w ->
  forall k e, nth_error es k = Some e ->
    entityId (fst (addEntities es w)) e
    = nth_error (assignedIds (snd (addEntities es w))) k.
Proof.
  intros Hkeep. induction es as [|e0 es IH]; intros Hnd w Hw k e Hk.
  - destruct k; discriminate.
  - destruct (addEntity_numbers e0 w (proj1 private e0) Hw)
      as (Ht & Hid & _ & _ & _ & _ & _ & Hn).
    rewrite addEntities_cons. cbn [fst snd]. rewrite Ht.
    cbn [assignedIds flat_map app].
    fold (assignedIds (snd (addEntities es (fst (addEntity e0 w))))).
    inversion Hnd as [|? ? Hnotin Hnd']; subst.
    destruct k as [|k].
    + injection Hk as <-. cbn [nth_error].
      apply addEntities_keeps_identifier; assumption.
    + cbn [nth_error] in *. apply IH; [exact Hnd'|exact (proj1 Hn)|exact Hk].
Qed.

(** C8: every [addEntity(e)] call gives [e] an identifier, the value the
    counter has when [e.spawn] returns: it is at least 1, greater than
    every identifier an entity held before the call, held by no other
    entity after it, and the counter moves past it.  Over any sequence of
    calls, whatever the entities and the order they were constructed in,
    the identifiers given are strictly increasing and without repeats:
    the entity of each call holds its identifier right after the call,
    that identifier was held by no entity at any earlier point of the
    sequence, and each entity of a sequence without repetitions still
    holds it at the end when [spawn] leaves identifiers alone.  On a new
    world, whose counter is 1, the entities then hold 1, 2, 3, ... in the
    order of the calls.  Through whole sessions, with the entities that
    components add and with resets, no two entities hold the same
    identifier and no identifier that an entity held is given to another
    one: the counter is never set back. *)
Theorem entities_hold_increasing_identifiers :
  (forall (e : Entity) (w : World),
      wellNumbered w ->
      exists id,
        snd (addEntity e w) = [EvSpawn e; EvAssignId e id; EvPush e]
        /\ id = count (Entity_spawn e w)
        /\ entityId (fst (addEntity e w)) e = Some id
        /\ (1 <= id)%Z
        /\ (count w <= id)%Z
        /\ count (fst (addEntity e w)) = (id + 1)%Z
        /\ (forall x old, entityId w x = Some old -> (old < id)%Z)
        /\ (forall x, entityId (fst (addEntity e w)) x = Some id -> x = e)
        /\ wellNumbered (fst (addEntity e w)))
  /\ (forall (es : list Entity) (w : World),
         wellNumbered w ->
         let ids := assignedIds (snd (addEntities es w)) in
         let after := fun k => fst (addEntities (firstn k es) w) in
         length ids = length es
         /\ StronglySorted Z.lt ids
         /\ NoDup ids
         /\ Forall (fun id => (1 <= id)%Z /\ (count w <= id)%Z) ids
         /\ (forall k e,
                nth_error es k = Some e ->
                exists id,
                  nth_error ids k = Some id
                  /\ entityId (after (S k)) e = Some id
                  /\ (forall x, entityId (after (S k)) x = Some id -> x = e)
                  /\ (forall j x old,
                         j <= k -> entityId (after j) x = Some old ->
                         (old < id)%Z))
         /\ (spawnKeepsIdentifiers -> NoDup es ->
             forall k e,
               nth_error es k = Some e ->
               entityId (fst (addEntities es w)) e = nth_error ids k)
         /\ wellNumbered (fst (addEntities es w))
         /\ neverReused w (fst (addEntities es w)))
  /\ (wellNumbered newGame /\ count newGame = 1%Z
      /\ (forall x, entityId newGame x = None)
      /\ forall (es : list Entity),
           spawnAddsNothing -> spawnKeepsIdentifiers -> NoDup es ->
           forall k e,
             nth_error es k = Some e ->
             entityId (fst (addEntities es newGame)) e = Some (Z.of_nat (S k)))
  /\ (forall (inputs : list (Input Delta)) (w : World),
         wellNumbered w ->
         wellNumbered (fst (run inputs w))
         /\ (count w <= count (fst (run inputs w)))%Z
         /\ neverReused w (fst (run inputs w)))
  /\ (forall (inputs : list (Input Delta)) (more : list Entity),
         wellNumbered
           (fst ((initEntities >> run inputs >> addEntities more) newGame))).
Proof.
  split; [|split; [|split; [|split]]].
  - intros e w Hw.
    destruct (addEntity_numbers e w (proj1 private e) Hw)
      as (Ht & Hid & H1 & Hlo & Hc & Hold & Honly & Hn).
    exists (count (Entity_spawn e w)).
    repeat (split; [assumption || reflexivity|]). exact (proj1 Hn).
  - intros es w Hw ids after.
    destruct (addEntities_assigns_upward es w Hw) as (Hlen & Hs & Hb).
    pose proof (addEntities_keepsNumbering es w Hw) as Hn.
    split; [exact Hlen|]. split; [exact Hs|].
    split; [apply StronglySorted_lt_NoDup; exact Hs|].
    split.
    { revert Hb. apply Forall_impl. intros id Hid.
      destruct Hw as (Hw1 & _). lia. }
    split.
    { intros k e Hk.
      destruct (addEntities_each es w Hw k e Hk)
        as (id & Hnth & _ & Hheld & Honly & Hold).
      exists id. split; [exact Hnth|]. split; [exact Hheld|].
      split; [exact Honly|exact Hold]. }
    split.
    { intros Hkeep Hnd k e Hk. apply addEntities_final; assumption. }
    split; [exact (proj1 Hn)|].
    apply numberedFrom_neverReused; assumption.
  - split; [exact wellNumbered_newGame|]. split; [reflexivity|].
    split; [reflexivity|].
    intros es Hadds Hkeep Hnd k e Hk.
    rewrite (addEntities_final es Hkeep Hnd newGame wellNumbered_newGame k e Hk).
    rewrite (addEntities_consecutive es newGame Hadds).
    replace (map (fun k0 => (count newGame + Z.of_nat k0)%Z) (seq 0 (length es)))
      with (map Z.of_nat (seq 1 (length es))).
    + apply nth_error_consecutive. apply nth_error_Some. congruence.
    + rewrite <- seq_shift, map_map. apply map_ext. intros i. cbn [count newGame]. lia.
  - intros inputs w Hw.
    pose proof (run_keepsNumbering inputs w Hw) as Hn.
    split; [exact (proj1 Hn)|]. split; [exact (proj1 (proj2 Hn))|].
    apply numberedFrom_neverReused; assumption.
  - intros inputs more.
    apply (keepsNumbering_andThen (initEntities >> run inputs) (addEntities more)).
    + apply keepsNumbering_andThen;
        [apply initEntities_keepsNumbering|apply run_keepsNumbering].
    + apply addEntities_keepsNumbering.
    + exact wellNumbered_newGame.
Qed.

End PrivateIdentifiers.

End HeldIdentifiers.

Lemma quiet_identifiersArePrivate : identifiersArePrivate (ext := quiet).
Proof.
  unfold identifiersArePrivate. cbn.
  split; [|split; [|split; [|split]]];
    intros; intros w Hw; apply numberedFrom_refl; exact Hw.
Qed.

Lemma spawning_identifiersArePrivate : identifiersArePrivate (ext := spawning).
Proof.
  unfold identifiersArePrivate. cbn.
  split; [|split; [|split; [|split]]];
    try (intros; intros w Hw; apply numberedFrom_refl; exact Hw).
  intros e d. destruct (Nat.eqb e 0).
  - exact (addEntity_keepsNumbering (ext := quiet) 5
             (proj1 quiet_identifiersArePrivate 5)).
  - intros w Hw. apply numberedFrom_refl. exact Hw.
Qed.

Lemma wellNumbered_worldOf (es : list Entity) : wellNumbered (worldOf es).
Proof.
  exact (proj1 (addEntities_keepsNumbering (ext := quiet)
                  quiet_identifiersArePrivate es newGame wellNumbered_newGame)).
Qed.

Lemma entities_hold_increasing_identifiers_witness :
  let w := worldOf [0; 1] in
  let w' := fst (run (ext := spawning) [Tick 0%Z] w) in
  identifiersArePrivate (ext := spawning)
  /\ wellNumbered w
  /\ entityId w' 5 = Some 3%Z
  /\ (wellNumbered w' /\ (count w <= count w')%Z /\ neverReused w w').
Proof.
  intros w w'.
  split; [exact spawning_identifiersArePrivate|].
  split; [exact (wellNumbered_worldOf [0; 1])|].
  split; [vm_compute; reflexivity|].
  exact (proj1 (proj2 (proj2 (proj2
           (entities_hold_increasing_identifiers (ext := spawning)
              spawning_identifiersArePrivate))))
           [Tick 0%Z] w (wellNumbered_worldOf [0; 1])).
Defined.

(** ** The frame *)

Section FrameFacts.

Context {Delta Hitbox : Type} {ext : Externals Delta Hitbox}.

Lemma frame_world (deltaMS : Delta) (w : World) :
  fst (frame deltaMS w)
  = fst (lateUpdatePass deltaMS (afterCollisions deltaMS w)).
Proof. unfold frame. rewrite !andThen_run. reflexivity. Qed.

(** The calls of a frame: the updates of the entities present at the
    start, the destructions, the collision pass, the late updates of the
    entities present after the collision pass. *)
Lemma frame_trace (deltaMS : Delta) (w : World) :
  snd (frame deltaMS w)
  = map EvUpdate (entities w)
    ++ map EvDestroy (filter (deleted (afterUpdatePass deltaMS w))
                             (entities (afterUpdatePass deltaMS w)))
    ++ snd (detectCollisions (compact (afterDestroyPass deltaMS w)))
    ++ map EvLateUpdate (entities (afterCollisions deltaMS w)).
Proof.
  unfold frame. rewrite !andThen_run. cbn [fst snd].
  unfold afterCollisions, afterDestroyPass, afterUpdatePass.
  unfold updatePass at 1, destroyPass at 1, lateUpdatePass at 1.
  rewrite !for_calls. unfold lift. cbn [fst snd].
  rewrite app_nil_r, <- !app_assoc. reflexivity.
Qed.

Lemma update_running (deltaMS : Delta) (w : World) :
  isGameOver w = false -> update deltaMS w = frame deltaMS w.
Proof. intros H. unfold update. rewrite H. reflexivity. Qed.

Lemma compact_noDeletedEntity (w : World) : noDeletedEntity (compact w).
Proof.
  intros e He. simpl in He. apply filter_In in He.
  destruct He as [_ He]. simpl. apply negb_true_iff. exact He.
Qed.

Lemma compact_drops_deleted (w : World) (e : Entity) :
  deleted w e = true -> ~ In e (entities (compact w)).
Proof.
  intros Hd He. apply compact_noDeletedEntity in He. simpl in He. congruence.
Qed.

(** What every callback keeps, the collision pass keeps; and it makes
    collision calls only. *)
Lemma detectCollisions_invariant (P : World -> Prop) :
  (forall h1 h2 v, P v -> P (collidedWith h1 h2 v)) ->
  forall w, P w ->
       P (fst (detectCollisions w))
       /\ Forall isCollisionEvent (snd (detectCollisions w)).
Proof.
  intros Hc w Hw. unfold detectCollisions.
  apply for_invariant; [|assumption].
  intros i v _ Hv. unfold outerBody.
  destruct (nth_error (entities w) i) as [e1|]; [|simpl; auto].
  destruct (deleted v e1); [simpl; auto|].
  apply for_invariant; [|assumption].
  intros j u _ Hu. unfold innerBody.
  destruct (nth_error (entities w) j) as [e2|]; [|simpl; auto].
  destruct (deleted u e2); [simpl; auto|].
  unfold collide.
  destruct (intersects _ _ u); simpl; split; auto.
  - repeat constructor.
  - repeat constructor.
Qed.

Lemma lateUpdatePass_keeps (P : World -> Prop) (deltaMS : Delta) :
  (forall e v, P v -> P (Entity_lateUpdate e deltaMS v)) ->
  forall w, P w -> P (fst (lateUpdatePass deltaMS w)).
Proof.
  intros H w Hw. unfold lateUpdatePass.
  apply for_keeps; [|assumption]. intros e v _ Hv. simpl. auto.
Qed.

Lemma destroyPass_keeps (P : World -> Prop) :
  (forall e v, P v -> P (Entity_destroy e v)) ->
  forall w, P w -> P (fst (destroyPass w)).
Proof.
  intros H w Hw. unfold destroyPass.
  apply for_keeps; [|assumption]. intros e v _ Hv. simpl. auto.
Qed.

(** C1, as the code has it: the collection is compacted between the
    destruction pass and the collision pass, and not again.  So right
    after compaction it holds no deleted entity, and an entity that was
    marked deleted by then has left it before the collision pass; when
    [update()] returns it holds none provided the collision callbacks and
    the late updates of the frame leave none in it; and what is in the
    collision snapshot is still in the collection when [update()] returns,
    whatever its flag has become. *)
Theorem compaction_precedes_the_collision_pass :
  forall (deltaMS : Delta) (w : World),
    isGameOver w = false ->
    noDeletedEntity (compact (afterDestroyPass deltaMS w))
    /\ (forall e, deleted (afterDestroyPass deltaMS w) e = true ->
                  ~ In e (collisionSnapshot deltaMS w))
    /\ ((forall h1 h2 v, noDeletedEntity v -> noDeletedEntity (collidedWith h1 h2 v)) ->
        (forall e v, noDeletedEntity v -> noDeletedEntity (Entity_lateUpdate e deltaMS v)) ->
        noDeletedEntity (fst (update deltaMS w)))
    /\ (collidedWithKeepsCollection -> lateUpdateKeepsCollection ->
        forall e, In e (collisionSnapshot deltaMS w) ->
                  In e (entities (fst (update deltaMS w)))).
Proof.
  intros deltaMS w Hrun.
  split; [apply compact_noDeletedEntity|].
  split; [intros e; apply compact_drops_deleted|].
  rewrite (update_running deltaMS w Hrun), frame_world.
  split.
  - intros Hc Hl.
    apply lateUpdatePass_keeps; [exact Hl|].
    unfold afterCollisions.
    apply (detectCollisions_invariant noDeletedEntity Hc).
    apply compact_noDeletedEntity.
  - intros Hc Hl e He.
    apply (lateUpdatePass_keeps (fun v => In e (entities v)));
      [intros x v; apply Hl|].
    unfold afterCollisions.
    apply (detectCollisions_invariant (fun v => In e (entities v)));
      [intros h1 h2 v; apply Hc|exact He].
Qed.

(** C10, as the code has it: an entity that enters the collection during
    the update pass is not updated in that frame; if it is not marked
    deleted when the collection is compacted it is in the snapshot of that
    frame's collision pass and is late-updated in that frame. *)
Theorem entity_added_during_the_update_pass :
  forall (deltaMS : Delta) (w : World) (e : Entity),
    destroyKeepsCollection ->
    collidedWithKeepsCollection ->
    isGameOver w = false ->
    ~ In e (entities w) ->
    In e (entities (afterUpdatePass deltaMS w)) ->
    deleted (afterDestroyPass deltaMS w) e = false ->
    ~ In (EvUpdate e) (snd (update deltaMS w))
    /\ In e (collisionSnapshot deltaMS w)
    /\ In (EvLateUpdate e) (snd (update deltaMS w)).
Proof.
  intros deltaMS w e Hd Hc Hrun Hnew Hadded Hlive.
  rewrite (update_running deltaMS w Hrun), frame_trace.
  assert (Hsnap : In e (collisionSnapshot deltaMS w)).
  { unfold collisionSnapshot. simpl. apply filter_In. split.
    - unfold afterDestroyPass.
      apply (destroyPass_keeps (fun v => In e (entities v)));
        [intros x v; apply Hd|exact Hadded].
    - rewrite Hlive. reflexivity. }
  assert (Hcoll := detectCollisions_invariant
                     (fun v => In e (entities v))
                     (fun h1 h2 v => Hc h1 h2 v e)
                     (compact (afterDestroyPass deltaMS w)) Hsnap).
  destruct Hcoll as [Hafter Hevents].
  split; [|split; [exact Hsnap|]].
  - rewrite !in_app_iff, !in_map_iff. intros [H|[H|[H|H]]].
    + destruct H as (x & Hx & Hin). injection Hx as ->. contradiction.
    + destruct H as (x & Hx & _). discriminate Hx.
    + rewrite Forall_forall in Hevents. exact (Hevents _ H).
    + destruct H as (x & Hx & _). discriminate Hx.
  - rewrite !in_app_iff. right. right. right.
    apply in_map. exact Hafter.
Qed.

End FrameFacts.

(** C1 as stated fails: entity 0 is marked deleted by a collision callback
    and is still in the collection when [update()] returns. *)
Lemma deleted_in_collision_pass_stays_in_collection :
  isGameOver (worldOf [0; 1; 2]) = false
  /\ noDeletedEntity (worldOf [0; 1; 2])
  /\ ~ noDeletedEntity (fst (update (ext := caught) 16%Z (worldOf [0; 1; 2]))).
Proof.
  split; [reflexivity|]. split; [intros e _; reflexivity|].
  intros H. specialize (H 0). vm_compute in H.
  discriminate H. left. reflexivity.
Qed.

Lemma compaction_precedes_the_collision_pass_witness :
  isGameOver (worldOf [0; 1; 2]) = false
  /\ noDeletedEntity (compact (afterDestroyPass (ext := caught) 16%Z (worldOf [0; 1; 2]))).
Proof.
  assert (H : isGameOver (worldOf [0; 1; 2]) = false) by reflexivity.
  split; [exact H|].
  exact (proj1 (compaction_precedes_the_collision_pass
                  (ext := caught) 16%Z (worldOf [0; 1; 2]) H)).
Defined.

(** C10 as stated fails: entity 5 is added and marked deleted during the
    update pass; it is destroyed and compacted away, so it is neither in the
    collision snapshot nor late-updated. *)
Lemma added_and_deleted_entity_gets_no_lateUpdate :
  let w := worldOf [0; 1] in
  ~ In 5 (entities w)
  /\ In 5 (entities (afterUpdatePass (ext := stillborn) 16%Z w))
  /\ ~ In 5 (collisionSnapshot (ext := stillborn) 16%Z w)
  /\ ~ In (EvLateUpdate 5) (snd (update (ext := stillborn) 16%Z w)).
Proof.
  vm_compute. repeat split.
  - intros [H|[H|[]]]; discriminate H.
  - right. right. left. reflexivity.
  - intros [H|[H|[]]]; discriminate H.
  - intros H. repeat (destruct H as [H|H]; [discriminate H|]). exact H.
Qed.

Lemma spawning_keeps_collection :
  destroyKeepsCollection (ext := spawning)
  /\ collidedWithKeepsCollection (ext := spawning).
Proof. split; intros ? ? ? ?; intros; assumption. Qed.

Lemma entity_added_during_the_update_pass_witness :
  ~ In (EvUpdate 5) (snd (update (ext := spawning) 16%Z (worldOf [0; 1])))
  /\ In 5 (collisionSnapshot (ext := spawning) 16%Z (worldOf [0; 1]))
  /\ In (EvLateUpdate 5) (snd (update (ext := spawning) 16%Z (worldOf [0; 1]))).
Proof.
  apply (entity_added_during_the_update_pass (ext := spawning) 16%Z (worldOf [0; 1]) 5).
  - exact (proj1 spawning_keeps_collection).
  - exact (proj2 spawning_keeps_collection).
  - reflexivity.
  - vm_compute. intros [H|[H|[]]]; discriminate H.
  - vm_compute. right. right. left. reflexivity.
  - reflexivity.
Defined.

(** ** The collision pass *)

Lemma seq_split (a i m : nat) :
  seq a (i + S m) = seq a i ++ (a + i) :: seq (S (a + i)) m.
Proof. rewrite seq_app. reflexivity. Qed.

Lemma for_split {A : Type} (l1 : list A) (a : A) (l2 : list A)
      (body : A -> Pass) (w : World) :
  snd (for_ (l1 ++ a :: l2) body w)
  = snd (for_ l1 body w)
    ++ snd (body a (fst (for_ l1 body w)))
    ++ snd (for_ l2 body (fst (body a (fst (for_ l1 body w))))).
Proof. rewrite for_app, for_cons. reflexivity. Qed.

(** The calls of a loop are calls of its iterations. *)
Lemma for_calls_of {A : Type} (Q : A -> Event -> Prop) (l : list A)
      (body : A -> Pass) :
  (forall a w, In a l -> Forall (Q a) (snd (body a w))) ->
  forall w, Forall (fun ev => exists a, In a l /\ Q a ev) (snd (for_ l body w)).
Proof.
  intros Hbody. apply for_calls_only. intros a w Ha.
  specialize (Hbody a w Ha). revert Hbody. apply Forall_impl.
  intros ev Hev. exists a. auto.
Qed.

Lemma count_zero_by_owner (tr : list Event) (x : Event) (p : nat * nat) :
  owner x = Some p ->
  Forall (fun ev => owner ev <> Some p) tr ->
  count_occ Event_eq_dec tr x = 0.
Proof.
  intros Hx Htr. apply count_occ_not_In. intros Hin.
  rewrite Forall_forall in Htr. exact (Htr x Hin Hx).
Qed.

Lemma owner_forward (i j : nat) :
  i < j -> owner (EvCollidedWith i j) = Some (i, j).
Proof. intros H. simpl. rewrite Nat.min_l, Nat.max_r by lia. reflexivity. Qed.

Lemma owner_backward (i j : nat) :
  i < j -> owner (EvCollidedWith j i) = Some (i, j).
Proof. intros H. simpl. rewrite Nat.min_r, Nat.max_l by lia. reflexivity. Qed.

Ltac count_events :=
  cbn [count_occ andb Bool.eqb];
  repeat match goal with
         | |- context [Event_eq_dec ?a ?b] =>
             let E := fresh "E" in
             destruct (Event_eq_dec a b) as [E|E];
             [try discriminate E; try (injection E; intros; subst; try lia)
             |try congruence]
         end;
  try reflexivity; try lia.

Section CollisionFacts.

Context {Delta Hitbox : Type} {ext : Externals Delta Hitbox}.

Lemma collide_owner (i j : nat) (e1 e2 : Entity) (w : World) :
  i < j ->
  Forall (fun ev => owner ev = Some (i, j)) (snd (collide i j e1 e2 w)).
Proof.
  intros H. unfold collide. destruct (intersects _ _ w); simpl snd.
  - repeat constructor; [apply owner_forward|apply owner_backward]; exact H.
  - repeat constructor.
Qed.

Lemma innerBody_owner (coll : list Entity) (i : nat) (e1 : Entity)
      (j : nat) (w : World) :
  i < j ->
  Forall (fun ev => owner ev = Some (i, j)) (snd (innerBody coll i e1 j w)).
Proof.
  intros H. unfold innerBody.
  destruct (nth_error coll j) as [e2|]; [|constructor].
  destruct (deleted w e2); [constructor|].
  apply collide_owner. exact H.
Qed.

Lemma innerLoop_owner (coll : list Entity) (i : nat) (e1 : Entity)
      (js : list nat) (w : World) :
  (forall j, In j js -> i < j) ->
  Forall (fun ev => exists j, In j js /\ owner ev = Some (i, j))
         (snd (for_ js (innerBody coll i e1) w)).
Proof.
  intros Hjs.
  apply (for_calls_of (fun j ev => owner ev = Some (i, j))).
  intros j v Hj. apply innerBody_owner. auto.
Qed.

Lemma outerBody_owner (coll : list Entity) (i : nat) (w : World) :
  Forall (fun ev => exists j, i < j < length coll /\ owner ev = Some (i, j))
         (snd (outerBody coll i w)).
Proof.
  unfold outerBody.
  destruct (nth_error coll i) as [e1|]; [|constructor].
  destruct (deleted w e1); [constructor|].
  assert (Hjs : forall j, In j (seq (S i) (length coll - S i)) -> i < j).
  { intros j Hj. apply in_seq in Hj. lia. }
  generalize (innerLoop_owner coll i e1 _ w Hjs).
  apply Forall_impl. intros ev (j & Hj & Hev).
  exists j. split; [|exact Hev]. apply in_seq in Hj. lia.
Qed.

Lemma outerLoop_owner (coll : list Entity) (rows : list nat) (w : World) :
  Forall (fun ev => exists i j,
              In i rows /\ i < j < length coll /\ owner ev = Some (i, j))
         (snd (for_ rows (outerBody coll) w)).
Proof.
  generalize (for_calls_of
                (fun i ev => exists j, i < j < length coll
                                       /\ owner ev = Some (i, j))
                rows (outerBody coll)
                (fun i v _ => outerBody_owner coll i v) w).
  apply Forall_impl. intros ev (i & Hi & j & Hj & Hev). exists i, j. auto.
Qed.

(** Every call of the pass belongs to a pair of indices [a < b] of the
    snapshot. *)
Lemma detectCollisions_owner (w : World) :
  Forall (fun ev => exists a b,
              a < b < length (entities w) /\ owner ev = Some (a, b))
         (snd (detectCollisions w)).
Proof.
  generalize (outerLoop_owner (entities w) (seq 0 (length (entities w))) w).
  apply Forall_impl. intros ev (i & j & _ & Hj & Hev). exists i, j. auto.
Qed.

Lemma outerBody_at (coll : list Entity) (i : nat) (e1 : Entity) (v : World) :
  nth_error coll i = Some e1 ->
  outerBody coll i v
  = if deleted v e1 then (v, [])
    else for_ (seq (S i) (length coll - S i)) (innerBody coll i e1) v.
Proof. intros H. unfold outerBody. rewrite H. reflexivity. Qed.

Lemma innerBody_at (coll : list Entity) (i : nat) (e1 : Entity) (j : nat)
      (e2 : Entity) (u : World) :
  nth_error coll j = Some e2 ->
  innerBody coll i e1 j u
  = if deleted u e2 then (u, []) else collide i j e1 e2 u.
Proof. intros H. unfold innerBody. rewrite H. reflexivity. Qed.

(** The inner loop of [i]: the calls before index [j], the calls at [j],
    the calls after it. *)
Lemma innerLoop_pair (coll : list Entity) (i j : nat) (e1 : Entity)
      (v : World) :
  i < j < length coll ->
  exists pre post,
    snd (for_ (seq (S i) (length coll - S i)) (innerBody coll i e1) v)
    = pre
      ++ snd (innerBody coll i e1 j
                (fst (for_ (seq (S i) (j - S i)) (innerBody coll i e1) v)))
      ++ post
    /\ Forall (fun ev => owner ev <> Some (i, j)) pre
    /\ Forall (fun ev => owner ev <> Some (i, j)) post.
Proof.
  intros Hij.
  replace (length coll - S i) with ((j - S i) + S (length coll - S j)) by lia.
  rewrite seq_split, for_split.
  replace (S i + (j - S i)) with j by lia.
  eexists. eexists. split; [reflexivity|]. split.
  - assert (Hjs : forall b, In b (seq (S i) (j - S i)) -> i < b).
    { intros b Hb. apply in_seq in Hb. lia. }
    generalize (innerLoop_owner coll i e1 _ v Hjs).
    apply Forall_impl. intros ev (b & Hb & Hev) E.
    apply in_seq in Hb. rewrite Hev in E. injection E as ->. lia.
  - assert (Hjs : forall b, In b (seq (S j) (length coll - S j)) -> i < b).
    { intros b Hb. apply in_seq in Hb. lia. }
    match goal with
    | |- Forall _ (snd (for_ _ _ ?u)) =>
        generalize (innerLoop_owner coll i e1 _ u Hjs)
    end.
    apply Forall_impl. intros ev (b & Hb & Hev) E.
    apply in_seq in Hb. rewrite Hev in E. injection E as ->. lia.
Qed.

(** The whole pass: the calls before the pair, the calls for the pair,
    the calls after it. *)
Lemma detectCollisions_pair (w : World) (i j : nat) (e1 e2 : Entity) :
  i < j ->
  nth_error (entities w) i = Some e1 ->
  nth_error (entities w) j = Some e2 ->
  exists pre post,
    snd (detectCollisions w) = pre ++ pairBlock w i j e1 e2 ++ post
    /\ Forall (fun ev => owner ev <> Some (i, j)) pre
    /\ Forall (fun ev => owner ev <> Some (i, j)) post.
Proof.
  intros Hij H1 H2.
  assert (Hj : j < length (entities w)).
  { apply nth_error_Some. congruence. }
  unfold detectCollisions.
  replace (length (entities w))
    with (i + S (length (entities w) - S i)) by lia.
  rewrite seq_split, for_split. simpl Nat.add.
  change (fst (for_ (seq 0 i) (outerBody (entities w)) w))
    with (beforeOuter w i).
  set (Tpre := snd (for_ (seq 0 i) (outerBody (entities w)) w)).
  set (Tpost := snd (for_ (seq (S i) (length (entities w) - S i))
                          (outerBody (entities w)) _)).
  assert (Hpre : Forall (fun ev => owner ev <> Some (i, j)) Tpre).
  { generalize (outerLoop_owner (entities w) (seq 0 i) w).
    apply Forall_impl. intros ev (a & b & Ha & _ & Hev) E.
    apply in_seq in Ha. rewrite Hev in E. injection E as -> ->. lia. }
  assert (Hpost : Forall (fun ev => owner ev <> Some (i, j)) Tpost).
  { generalize (outerLoop_owner (entities w)
                  (seq (S i) (length (entities w) - S i))
                  (fst (outerBody (entities w) i (beforeOuter w i)))).
    apply Forall_impl. intros ev (a & b & Ha & _ & Hev) E.
    apply in_seq in Ha. rewrite Hev in E. injection E as -> ->. lia. }
  rewrite (outerBody_at (entities w) i e1 (beforeOuter w i) H1).
  unfold pairBlock, pairTested, pairOverlaps.
  destruct (deleted (beforeOuter w i) e1).
  - exists Tpre, Tpost. simpl. auto.
  - destruct (innerLoop_pair (entities w) i j e1 (beforeOuter w i)
                             (conj Hij Hj))
      as (Upre & Upost & HU & HUpre & HUpost).
    change (fst (for_ (seq (S i) (j - S i)) (innerBody (entities w) i e1)
                      (beforeOuter w i)))
      with (beforePair w i j e1) in HU.
    rewrite (innerBody_at (entities w) i e1 j e2 (beforePair w i j e1) H2) in HU.
    exists (Tpre ++ Upre), (Upost ++ Tpost).
    split; [|split; apply Forall_app; auto].
    rewrite HU. simpl negb. simpl andb.
    destruct (deleted (beforePair w i j e1) e2); simpl negb; cbv iota.
    + simpl. rewrite <- !app_assoc. reflexivity.
    + unfold collide.
      destruct (intersects (getHitboxFrom e1 (beforePair w i j e1))
                           (getHitboxFrom e2 (beforePair w i j e1))
                           (beforePair w i j e1));
        cbn [snd]; rewrite <- !app_assoc; reflexivity.
Qed.

End CollisionFacts.

Section CollisionPairs.

Context {Delta Hitbox : Type} {ext : Externals Delta Hitbox}.

Lemma innerLoop_keeps (P : World -> Prop) :
  (forall h1 h2 v, P v -> P (collidedWith h1 h2 v)) ->
  forall coll i e1 js w,
    P w -> P (fst (for_ js (innerBody coll i e1) w)).
Proof.
  intros Hc coll i e1 js w Hw.
  apply for_keeps; [|assumption].
  intros j u _ Hu. unfold innerBody.
  destruct (nth_error coll j) as [e2|]; [|assumption].
  destruct (deleted u e2); [assumption|].
  unfold collide. destruct (intersects _ _ u); simpl; auto.
Qed.

Lemma outerLoop_keeps (P : World -> Prop) :
  (forall h1 h2 v, P v -> P (collidedWith h1 h2 v)) ->
  forall coll rows w,
    P w -> P (fst (for_ rows (outerBody coll) w)).
Proof.
  intros Hc coll rows w Hw.
  apply for_keeps; [|assumption].
  intros i v _ Hv. unfold outerBody.
  destruct (nth_error coll i) as [e1|]; [|assumption].
  destruct (deleted v e1); [assumption|].
  apply innerLoop_keeps; assumption.
Qed.

(** When no callback changes a [deleted] flag, the entities of a snapshot
    without deleted entities stay undeleted throughout the pass. *)
Lemma no_deletion_during_pass (w : World) (i j : nat) (e1 e2 : Entity) :
  callbacksDeleteNothing ->
  noDeletedEntity w ->
  nth_error (entities w) i = Some e1 ->
  nth_error (entities w) j = Some e2 ->
  deleted (beforeOuter w i) e1 = false
  /\ deleted (beforePair w i j e1) e1 = false
  /\ deleted (beforePair w i j e1) e2 = false.
Proof.
  intros Hfrozen Hclean H1 H2.
  assert (Hkeep : forall h1 h2 v,
             (forall e, deleted v e = deleted w e) ->
             forall e, deleted (collidedWith h1 h2 v) e = deleted w e).
  { intros h1 h2 v Hv e. rewrite Hfrozen. apply Hv. }
  assert (Ho : forall e, deleted (beforeOuter w i) e = deleted w e).
  { unfold beforeOuter.
    apply (outerLoop_keeps (fun v => forall e, deleted v e = deleted w e) Hkeep).
    reflexivity. }
  assert (Hp : forall e, deleted (beforePair w i j e1) e = deleted w e).
  { unfold beforePair.
    apply (innerLoop_keeps (fun v => forall e, deleted v e = deleted w e) Hkeep).
    exact Ho. }
  rewrite Ho, !Hp.
  rewrite (Hclean e1 (nth_error_In _ _ H1)), (Hclean e2 (nth_error_In _ _ H2)).
  auto.
Qed.

(** The calls of the pass that belong to the pair are those of its block. *)
Lemma detectCollisions_pair_counts (w : World) (i j : nat) (e1 e2 : Entity) :
  i < j ->
  nth_error (entities w) i = Some e1 ->
  nth_error (entities w) j = Some e2 ->
  forall x, owner x = Some (i, j) ->
    count_occ Event_eq_dec (snd (detectCollisions w)) x
    = count_occ Event_eq_dec (pairBlock w i j e1 e2) x.
Proof.
  intros Hij H1 H2 x Hx.
  destruct (detectCollisions_pair w i j e1 e2 Hij H1 H2)
    as (pre & post & Htr & Hpre & Hpost).
  rewrite Htr, !count_occ_app.
  rewrite (count_zero_by_owner pre x (i, j) Hx Hpre).
  rewrite (count_zero_by_owner post x (i, j) Hx Hpost). lia.
Qed.

(** C6, as the code has it.  Take indices [i < j] of the snapshot and the
    point at which the inner loop of [i] reaches [j].  If entity [i] was not
    marked deleted when the outer loop reached it, neither entity is marked
    deleted at that point and the hitboxes intersect there, the pair gets
    exactly one [collidedWith] in each direction, [i] notified with [j] and
    next [j] notified with [i].  If entity [i] was marked deleted when the
    outer loop reached it, or entity [j] is marked deleted at that point, or
    the hitboxes do not intersect there, the pair gets no callback.  No pair
    is tested twice, no index is paired with itself, and when no callback
    marks an entity deleted no entity of a snapshot without deleted
    entities is marked deleted at any of these points. *)
Theorem collision_pass_notifies_tested_overlapping_pairs :
  forall (w : World) (i j : nat) (e1 e2 : Entity),
    i < j ->
    nth_error (entities w) i = Some e1 ->
    nth_error (entities w) j = Some e2 ->
    let tr := snd (detectCollisions w) in
    let v := beforePair w i j e1 in
    (deleted (beforeOuter w i) e1 = false ->
     deleted v e1 = false ->
     deleted v e2 = false ->
     intersects (getHitboxFrom e1 v) (getHitboxFrom e2 v) v = true ->
     count_occ Event_eq_dec tr (EvCollidedWith i j) = 1
     /\ count_occ Event_eq_dec tr (EvCollidedWith j i) = 1
     /\ exists pre post,
         tr = pre
              ++ [EvIntersects i j true; EvCollidedWith i j; EvCollidedWith j i]
              ++ post)
    /\ (deleted (beforeOuter w i) e1 = true
        \/ deleted v e2 = true
        \/ intersects (getHitboxFrom e1 v) (getHitboxFrom e2 v) v = false ->
        count_occ Event_eq_dec tr (EvCollidedWith i j) = 0
        /\ count_occ Event_eq_dec tr (EvCollidedWith j i) = 0)
    /\ count_occ Event_eq_dec tr (EvIntersects i j true)
       + count_occ Event_eq_dec tr (EvIntersects i j false) <= 1
    /\ (forall k b, ~ In (EvCollidedWith k k) tr /\ ~ In (EvIntersects k k b) tr)
    /\ (callbacksDeleteNothing -> noDeletedEntity w ->
        deleted (beforeOuter w i) e1 = false
        /\ deleted v e1 = false
        /\ deleted v e2 = false).
Proof.
  intros w i j e1 e2 Hij H1 H2 tr v.
  pose proof (detectCollisions_pair_counts w i j e1 e2 Hij H1 H2) as Hcount.
  fold tr in Hcount.
  pose proof (Hcount _ (owner_forward i j Hij)) as Hfwd.
  pose proof (Hcount _ (owner_backward i j Hij)) as Hbwd.
  pose proof (Hcount (EvIntersects i j true) eq_refl) as Htrue.
  pose proof (Hcount (EvIntersects i j false) eq_refl) as Hfalse.
  clear Hcount.
  unfold pairBlock, pairTested, pairOverlaps in Hfwd, Hbwd, Htrue, Hfalse.
  fold v in Hfwd, Hbwd, Htrue, Hfalse.
  split; [|split; [|split; [|split]]].
  - intros Ho _ H2v Hov.
    rewrite Ho, H2v, Hov in Hfwd, Hbwd. simpl negb in Hfwd, Hbwd.
    split; [rewrite Hfwd; count_events|].
    split; [rewrite Hbwd; count_events|].
    destruct (detectCollisions_pair w i j e1 e2 Hij H1 H2)
      as (pre & post & Htr & _ & _).
    exists pre, post. fold tr in Htr. rewrite Htr.
    unfold pairBlock, pairTested, pairOverlaps. fold v.
    rewrite Ho, H2v, Hov. reflexivity.
  - intros Hskip. rewrite Hfwd, Hbwd.
    destruct (deleted (beforeOuter w i) e1), (deleted v e2),
      (intersects (getHitboxFrom e1 v) (getHitboxFrom e2 v) v);
      try (destruct Hskip as [H|[H|H]]; discriminate H);
      simpl negb; split; count_events.
  - rewrite Htrue, Hfalse.
    destruct (deleted (beforeOuter w i) e1), (deleted v e2),
      (intersects (getHitboxFrom e1 v) (getHitboxFrom e2 v) v);
      simpl negb; count_events.
  - intros k b.
    pose proof (detectCollisions_owner w) as Hown. fold tr in Hown.
    rewrite Forall_forall in Hown.
    split; intros Hin; destruct (Hown _ Hin) as (a & c & Hac & Hev);
      simpl in Hev.
    + rewrite Nat.min_id, Nat.max_id in Hev. injection Hev as -> ->. lia.
    + injection Hev as -> ->. lia.
  - intros Hfrozen Hclean.
    apply (no_deletion_during_pass w i j e1 e2 Hfrozen Hclean H1 H2).
Qed.

End CollisionPairs.

(** C6 as stated fails: the hitboxes of entities 0 and 2 intersect, but the
    first callback of the pass marks entity 2 deleted and the pair (0, 2) is
    skipped. *)
Lemma overlapping_pair_skipped_after_deletion :
  noDeletedEntity (worldOf [0; 1; 2])
  /\ ~ everyOverlapNotified (ext := chased) (worldOf [0; 1; 2]).
Proof.
  split; [intros e _; reflexivity|].
  intros H.
  destruct (H 0 2 0 2 ltac:(lia) eq_refl eq_refl eq_refl) as [H1 _].
  vm_compute in H1. discriminate H1.
Qed.

Lemma collision_pass_notifies_tested_overlapping_pairs_witness :
  count_occ Event_eq_dec (snd (detectCollisions (ext := chased) (worldOf [0; 1; 2])))
            (EvCollidedWith 0 1) = 1
  /\ count_occ Event_eq_dec (snd (detectCollisions (ext := chased) (worldOf [0; 1; 2])))
               (EvCollidedWith 1 0) = 1.
Proof.
  destruct (proj1 (collision_pass_notifies_tested_overlapping_pairs
                     (ext := chased) (worldOf [0; 1; 2]) 0 1 0 1
                     ltac:(lia) eq_refl eq_refl)
                  eq_refl eq_refl eq_refl eq_refl) as (H1 & H2 & _).
  split; [exact H1|exact H2].
Defined.

(** * Further properties *)

(** ** GameState: sequences of operations *)

Lemma applyOp_streak_range (op : StateOp) (s : GameState) :
  (0 <= catsReturnedinARow s <= 5)%Z ->
  (0 <= catsReturnedinARow (applyOp op s) <= 5)%Z.
Proof.
  intros H. destruct op; cbn [applyOp].
  - destruct (increaseScore_streak amount s) as (Hc & _). rewrite Hc.
    destruct (catsReturnedinARow s + 1 >? 5)%Z eqn:E; lia.
  - destruct (loseLife_effect s) as (Hc & _). rewrite Hc. lia.
  - destruct (gainLife_effect s) as (Hc & _). rewrite Hc. exact H.
Qed.

(** The streak counter stays between 0 and 5 under every sequence of
    [increaseScore], [loseLife] and [gainLife] calls. *)
Theorem streak_stays_in_range :
  forall ops s,
    (0 <= catsReturnedinARow s <= 5)%Z ->
    (0 <= catsReturnedinARow (applyOps ops s) <= 5)%Z.
Proof.
  induction ops as [|op ops IH]; intros s H.
  - exact H.
  - rewrite applyOps_cons. apply IH. apply applyOp_streak_range. exact H.
Qed.

Lemma streak_stays_in_range_witness :
  (0 <= catsReturnedinARow
          (applyOps [OpIncreaseScore 1; OpIncreaseScore 1; OpLoseLife; OpGainLife]
                    newGameState) <= 5)%Z.
Proof.
  apply (streak_stays_in_range
           [OpIncreaseScore 1; OpIncreaseScore 1; OpLoseLife; OpGainLife]
           newGameState).
  simpl. lia.
Defined.

(** [n] calls of [increaseScore] in a row, whatever the amounts: the streak
    counts modulo six and every sixth call of the run grants one life. *)
Theorem increaseScore_in_a_row :
  forall (n : nat) (amount : Z) (s : GameState),
    (0 <= catsReturnedinARow s <= 5)%Z ->
    let s' := applyOps (repeat (OpIncreaseScore amount) n) s in
    catsReturnedinARow s' = ((catsReturnedinARow s + Z.of_nat n) mod 6)%Z
    /\ lives s' = (lives s + (catsReturnedinARow s + Z.of_nat n) / 6)%Z.
Proof.
  induction n as [|n IH]; intros amount s H.
  - simpl. rewrite Z.add_0_r, Z.mod_small, Z.div_small by lia. lia.
  - cbn [repeat]. rewrite applyOps_cons. cbn [applyOp].
    destruct (increaseScore_streak amount s) as (Hc & Hl & _).
    assert (H1 : (0 <= catsReturnedinARow (increaseScore amount s) <= 5)%Z).
    { exact (applyOp_streak_range (OpIncreaseScore amount) s H). }
    specialize (IH amount (increaseScore amount s) H1). cbv zeta in IH.
    destruct IH as (IHc & IHl).
    rewrite IHc, IHl, Hc, Hl. clear IHc IHl Hc Hl H1.
    destruct (catsReturnedinARow s + 1 >? 5)%Z eqn:E.
    + assert (Hfive : catsReturnedinARow s = 5%Z) by lia. rewrite Hfive.
      replace (5 + Z.of_nat (S n))%Z with (Z.of_nat n + 1 * 6)%Z by lia.
      rewrite Z_mod_plus_full, Z_div_plus_full by lia.
      rewrite Z.add_0_l. lia.
    + replace (catsReturnedinARow s + 1 + Z.of_nat n)%Z
        with (catsReturnedinARow s + Z.of_nat (S n))%Z by lia.
      lia.
Qed.

Lemma increaseScore_in_a_row_witness :
  catsReturnedinARow (applyOps (repeat (OpIncreaseScore 2) 14) newGameState) = 2%Z
  /\ lives (applyOps (repeat (OpIncreaseScore 2) 14) newGameState) = 5%Z.
Proof.
  apply (increaseScore_in_a_row 14 2 newGameState). simpl. lia.
Defined.

Lemma score_total (ops : list StateOp) :
  forall s, score (applyOps ops s) = (score s + totalAmount ops)%Z.
Proof.
  induction ops as [|op ops IH]; intros s.
  - simpl. lia.
  - rewrite applyOps_cons, IH, applyOp_score. destruct op; simpl; lia.
Qed.

(** For whole amounts, and as long as every amount and every running score
    is an integer a double holds and adds exactly (at most 2^53 in absolute
    value), the score is the starting score plus the sum of the amounts
    passed to [increaseScore]: [loseLife], [gainLife] and the streak bonus
    do not move it. *)
Theorem score_is_the_total_of_the_amounts :
  forall ops s,
    Forall exactAmount ops ->
    Forall exactInteger (scoreHistory ops s) ->
    score (applyOps ops s) = (score s + totalAmount ops)%Z.
Proof. intros ops s _ _. apply score_total. Qed.

Lemma score_is_the_total_of_the_amounts_witness :
  score (applyOps [OpIncreaseScore 2; OpLoseLife; OpIncreaseScore 5] newGameState)
  = (score newGameState + totalAmount [OpIncreaseScore 2; OpLoseLife; OpIncreaseScore 5])%Z.
Proof.
  apply (score_is_the_total_of_the_amounts
           [OpIncreaseScore 2; OpLoseLife; OpIncreaseScore 5] newGameState).
  - repeat constructor; unfold exactAmount, exactInteger; simpl; lia.
  - repeat constructor; unfold exactInteger; simpl; lia.
Defined.

Lemma lives_lost_only_by_loseLife (ops : list StateOp) :
  forall s, (lives s - Z.of_nat (losses ops) <= lives (applyOps ops s))%Z.
Proof.
  induction ops as [|op ops IH]; intros s.
  - simpl. lia.
  - rewrite applyOps_cons. specialize (IH (applyOp op s)).
    destruct op; cbn [applyOp losses] in *.
    + destruct (increaseScore_streak amount s) as (_ & Hl & _).
      rewrite Hl in IH.
      destruct (catsReturnedinARow s + 1 >? 5)%Z; lia.
    + destruct (loseLife_effect s) as (_ & Hl & _). rewrite Hl in IH. lia.
    + destruct (gainLife_effect s) as (_ & Hl & _). rewrite Hl in IH. lia.
Qed.

(** Lives are taken by [loseLife] only, one at a time: after a sequence with
    fewer [loseLife] calls than there were lives, lives remain and the world
    holding that state is not game over. *)
Theorem game_ends_only_through_loseLife :
  forall ops s,
    (Z.of_nat (losses ops) < lives s)%Z ->
    (lives s - Z.of_nat (losses ops) <= lives (applyOps ops s))%Z
    /\ (forall w, isGameOver (set_state (applyOps ops s) w) = false).
Proof.
  intros ops s H.
  pose proof (lives_lost_only_by_loseLife ops s) as Hl.
  split; [exact Hl|].
  intros w. unfold isGameOver. simpl. apply Z.leb_gt. lia.
Qed.

Lemma game_ends_only_through_loseLife_witness :
  isGameOver
    (set_state (applyOps [OpLoseLife; OpIncreaseScore 3; OpLoseLife] newGameState)
               newGame) = false.
Proof.
  apply (game_ends_only_through_loseLife
           [OpLoseLife; OpIncreaseScore 3; OpLoseLife] newGameState).
  simpl. lia.
Defined.

(** ** PickupComponent *)

Lemma pickup_onload_range (c : Pickup.PickupComponent) :
  (0 <= Pickup.height c <= 35)%Z ->
  (Pickup.height c mod 5 = 0)%Z ->
  (0 <= Pickup.height (fst (Pickup.onload c)) <= 35)%Z
  /\ (Pickup.height (fst (Pickup.onload c)) mod 5 = 0)%Z
  /\ snd (Pickup.onload c) = (0%Z, Pickup.height c).
Proof.
  intros Hr Hm. unfold Pickup.onload.
  destruct (Pickup.height c <=? 30)%Z eqn:E; simpl.
  - repeat split; try lia.
    rewrite <- Z.add_mod_idemp_l, Hm by lia. reflexivity.
  - assert (Pickup.height c = 35)%Z.
    { apply Z.leb_gt in E.
      apply Z.mod_divide in Hm; [|lia]. destruct Hm as [k Hk]. lia. }
    rewrite H. repeat split; lia || reflexivity.
Qed.

Lemma pickup_loads_range (n : nat) :
  forall c,
    (0 <= Pickup.height c <= 35)%Z ->
    (Pickup.height c mod 5 = 0)%Z ->
    (0 <= Pickup.height (fst (Pickup.loads n c)) <= 35)%Z
    /\ (Pickup.height (fst (Pickup.loads n c)) mod 5 = 0)%Z
    /\ Forall (fun d => fst d = 0 /\ 0 <= snd d <= 35)%Z (snd (Pickup.loads n c)).
Proof.
  induction n as [|n IH]; intros c Hr Hm.
  - simpl. auto.
  - destruct (pickup_onload_range c Hr Hm) as (Hr1 & Hm1 & Hd).
    cbn [Pickup.loads].
    destruct (Pickup.onload c) as [c1 d] eqn:E1. simpl in Hr1, Hm1, Hd.
    specialize (IH c1 Hr1 Hm1).
    destruct (Pickup.loads n c1) as [c2 ds]. simpl in *.
    destruct IH as (A & B & C).
    split; [exact A|]. split; [exact B|].
    constructor; [|assumption]. subst d. simpl. lia.
Qed.

Lemma pickup_loads_length (n : nat) :
  forall c, length (snd (Pickup.loads n c)) = n.
Proof.
  induction n as [|k IH]; intros c0; [reflexivity|].
  cbn [Pickup.loads]. destruct (Pickup.onload c0) as [c1 d].
  specialize (IH c1). destruct (Pickup.loads k c1) as [c2 ds].
  simpl in *. rewrite IH. reflexivity.
Qed.

(** However many images load, the height stays a multiple of 5 between 0
    and 35, and every image is drawn at the left edge with its top inside
    the 50-pixel canvas that [create()] makes. *)
Theorem pickup_height_stays_on_the_canvas :
  forall n,
    let c := fst (Pickup.loads n Pickup.newPickupComponent) in
    let drawn := snd (Pickup.loads n Pickup.newPickupComponent) in
    (0 <= Pickup.height c <= 35)%Z
    /\ (Pickup.height c mod 5 = 0)%Z
    /\ length drawn = n
    /\ Forall (fun d => fst d = 0 /\ 0 <= snd d < Pickup.canvasHeight Pickup.create)%Z
              drawn.
Proof.
  intros n c drawn.
  destruct (pickup_loads_range n Pickup.newPickupComponent) as (A & B & C);
    [simpl; lia|reflexivity|].
  split; [exact A|]. split; [exact B|]. split.
  - apply pickup_loads_length.
  - revert C. apply Forall_impl. intros d [H1 H2]. simpl. lia.
Qed.

Lemma pickup_loads_last (n : nat) :
  forall c,
    fst (Pickup.loads (S n) c) = fst (Pickup.onload (fst (Pickup.loads n c))).
Proof.
  induction n as [|n IH]; intros c.
  - simpl. destruct (Pickup.onload c). reflexivity.
  - change (Pickup.loads (S (S n)) c)
      with (let '(c1, d) := Pickup.onload c in
            let '(c2, ds) := Pickup.loads (S n) c1 in (c2, d :: ds)).
    change (Pickup.loads (S n) c)
      with (let '(c1, d) := Pickup.onload c in
            let '(c2, ds) := Pickup.loads n c1 in (c2, d :: ds)).
    destruct (Pickup.onload c) as [c1 d].
    specialize (IH c1).
    destruct (Pickup.loads (S n) c1) as [c2 ds].
    destruct (Pickup.loads n c1) as [c3 ds3].
    simpl in *. exact IH.
Qed.

(** The height climbs by 5 for the first seven images, to 35, and from then
    on alternates between 35 and 30: it never comes back down below 30. *)
Theorem pickup_height_climbs_then_alternates :
  forall n,
    let h := Pickup.height (fst (Pickup.loads n Pickup.newPickupComponent)) in
    (n <= 7 -> h = (5 * Z.of_nat n)%Z)
    /\ (7 <= n -> h = if Nat.even (n - 7) then 35%Z else 30%Z).
Proof.
  induction n as [|n IH].
  - simpl. split; [reflexivity|lia].
  - cbv zeta in *. rewrite pickup_loads_last. destruct IH as [IHlow IHhigh].
    set (c := fst (Pickup.loads n Pickup.newPickupComponent)) in *.
    split.
    + intros Hn.
      assert (Hh : Pickup.height c = (5 * Z.of_nat n)%Z) by (apply IHlow; lia).
      assert (E : (5 * Z.of_nat n <=? 30)%Z = true) by (apply Z.leb_le; lia).
      unfold Pickup.onload. rewrite Hh, E. cbn [fst Pickup.height]. lia.
    + intros Hn.
      destruct (Nat.eq_dec n 6) as [E6|Hne].
      * assert (Hh : Pickup.height c = 30%Z) by (rewrite IHlow; subst n; lia).
        unfold Pickup.onload. rewrite Hh. subst n. reflexivity.
      * assert (H7 : 7 <= n) by lia. specialize (IHhigh H7).
        replace (S n - 7) with (S (n - 7)) by lia.
        rewrite Nat.even_succ, <- Nat.negb_even.
        unfold Pickup.onload. rewrite IHhigh.
        destruct (Nat.even (n - 7)); reflexivity.
Qed.

(** ** AnimatedSpriteComponent *)

Lemma list_set_length {A : Type} (k : nat) (a : A) (l : list A) :
  length (list_set k a l) = length l.
Proof.
  revert k. induction l as [|x l IH]; intros [|k]; simpl; auto.
Qed.

Lemma nth_error_list_set_eq {A : Type} (k : nat) (a : A) (l : list A) :
  k < length l -> nth_error (list_set k a l) k = Some a.
Proof.
  revert k. induction l as [|x l IH]; intros [|k] H; simpl in *; try lia.
  - reflexivity.
  - apply IH. lia.
Qed.

Lemma nth_error_list_set_neq {A : Type} (k k' : nat) (a : A) (l : list A) :
  k <> k' -> nth_error (list_set k a l) k' = nth_error l k'.
Proof.
  revert k k'. induction l as [|x l IH]; intros [|k] [|k'] H; simpl;
    try reflexivity; try lia.
  apply IH. lia.
Qed.

Lemma list_set_same {A : Type} (k : nat) (a : A) (l : list A) :
  nth_error l k = Some a -> list_set k a l = l.
Proof.
  revert k. induction l as [|x l IH]; intros [|k] H; simpl in *;
    try discriminate.
  - congruence.
  - f_equal. apply IH. exact H.
Qed.

Lemma list_set_last {A : Type} (a x : A) (l : list A) :
  list_set (length l) a (l ++ [x]) = l ++ [a].
Proof. induction l as [|y l IH]; simpl; [reflexivity|]. f_equal. exact IH. Qed.

Lemma list_set_at_end {A : Type} (a x : A) (l : list A) (n : nat) :
  length l = n -> list_set n a (l ++ [x]) = l ++ [a].
Proof. intros <-. apply list_set_last. Qed.

Lemma last_cons {A : Type} (a d : A) (l : list A) :
  last (a :: l) d = last l a.
Proof.
  revert a d. induction l as [|b l IH]; intros a d; [reflexivity|].
  change (last (a :: b :: l) d) with (last (b :: l) d).
  rewrite !IH. reflexivity.
Qed.

Section AnimatedSpriteFacts.

Context {T : Type} (gtb ltb : T -> T -> bool).
Context (textureBox : string -> @AnimatedSprite.Box T).

Local Abbreviation Box := (@AnimatedSprite.Box T).
Local Abbreviation Component := (@AnimatedSprite.Component T).
Local Abbreviation update := (AnimatedSprite.update gtb ltb textureBox).
Local Abbreviation lifetime := (AnimatedSprite.lifetime gtb ltb textureBox).
Local Abbreviation newDirection := (AnimatedSprite.newDirection gtb ltb).
Local Abbreviation facing := (AnimatedSprite.facing gtb ltb).
Local Abbreviation moves := (AnimatedSprite.moves gtb ltb).
Local Abbreviation tracks := AnimatedSprite.tracks.

Lemma box_eta (b : Box) :
  AnimatedSprite.mkBox (AnimatedSprite.x b) (AnimatedSprite.y b)
                       (AnimatedSprite.width b) (AnimatedSprite.height b) = b.
Proof. destruct b. reflexivity. Qed.

Lemma onSpawn_tracks (name : string) (first : Box) :
  tracks name first AnimatedSprite.down 0
         (AnimatedSprite.onSpawn first (AnimatedSprite.newComponent textureBox name)).
Proof.
  unfold AnimatedSprite.tracks, AnimatedSprite.onSpawn,
    AnimatedSprite.snapToEntity, AnimatedSprite.currentSprite. simpl.
  rewrite box_eta. repeat split. intros k Hk. lia.
Qed.

Lemma update_tracks (name : string) (previous hitbox : Box)
      (d : AnimatedSprite.Direction) (m : nat) (c : Component) :
  tracks name previous d m c ->
  tracks name hitbox
         (match newDirection previous hitbox with Some d' => d' | None => d end)
         (match newDirection previous hitbox with Some _ => S m | None => m end)
         (update hitbox c).
Proof.
  intros (Hname & Hcur & Hlen & Hstage & Hnth & Hold).
  unfold AnimatedSprite.update, AnimatedSprite.updateDirection,
    AnimatedSprite.currentSprite.
  rewrite Hcur, Hnth. cbn [AnimatedSprite.box].
  destruct (newDirection previous hitbox) as [d'|].
  - unfold AnimatedSprite.replaceSprite, AnimatedSprite.currentSprite.
    rewrite Hcur, Hnth, Hlen, Hname.
    unfold AnimatedSprite.snapToEntity, AnimatedSprite.currentSprite.
    cbn [AnimatedSprite.sprite AnimatedSprite.sprites AnimatedSprite.filename
         AnimatedSprite.stage].
    cbn [AnimatedSprite.animation AnimatedSprite.box].
    set (old := list_set m
                  (AnimatedSprite.mkSprite (AnimatedSprite.animationKey name d)
                                           previous true)
                  (AnimatedSprite.sprites c)).
    assert (Hl : length old = S m).
    { unfold old. rewrite list_set_length. exact Hlen. }
    rewrite nth_error_app2 by lia. rewrite Hl, Nat.sub_diag.
    cbn [nth_error AnimatedSprite.animation AnimatedSprite.destroyed].
    rewrite (list_set_at_end _ _ _ _ Hl), box_eta.
    unfold AnimatedSprite.tracks.
    cbn [AnimatedSprite.sprite AnimatedSprite.sprites AnimatedSprite.filename
         AnimatedSprite.stage].
    split; [reflexivity|]. split; [reflexivity|].
    split; [rewrite length_app, Hl; simpl; lia|].
    split; [rewrite Hstage, (seq_S (S m) 0); reflexivity|].
    split.
    + rewrite nth_error_app2 by lia. rewrite Hl, Nat.sub_diag. reflexivity.
    + intros k Hk. rewrite nth_error_app1 by lia.
      destruct (Nat.eq_dec k m) as [->|Hne].
      * unfold old. rewrite nth_error_list_set_eq by lia.
        eexists. split; reflexivity.
      * unfold old. rewrite nth_error_list_set_neq by lia. apply Hold. lia.
  - unfold AnimatedSprite.snapToEntity, AnimatedSprite.currentSprite.
    rewrite Hcur, Hnth.
    cbn [AnimatedSprite.animation AnimatedSprite.destroyed].
    rewrite box_eta. unfold AnimatedSprite.tracks.
    cbn [AnimatedSprite.sprite AnimatedSprite.sprites AnimatedSprite.filename
         AnimatedSprite.stage].
    split; [exact Hname|]. split; [reflexivity|].
    split; [rewrite list_set_length; exact Hlen|].
    split; [exact Hstage|].
    split.
    + apply nth_error_list_set_eq. lia.
    + intros k Hk. rewrite nth_error_list_set_neq by lia. apply Hold. exact Hk.
Qed.

Lemma updates_track (name : string) (later : list Box) :
  forall (c : Component) (previous : Box) (d : AnimatedSprite.Direction) (m : nat),
    tracks name previous d m c ->
    tracks name (last later previous) (facing d previous later)
           (m + moves previous later)
           (fold_left (fun c' hitbox => update hitbox c') later c).
Proof.
  induction later as [|hitbox later IH]; intros c previous d m H.
  - simpl. rewrite Nat.add_0_r. exact H.
  - rewrite last_cons. cbn [fold_left AnimatedSprite.facing AnimatedSprite.moves].
    pose proof (update_tracks name previous hitbox d m c H) as H1.
    destruct (newDirection previous hitbox) as [d'|].
    + replace (m + S (moves hitbox later)) with (S m + moves hitbox later) by lia.
      apply IH. exact H1.
    + apply IH. exact H1.
Qed.

Lemma lifetime_tracks (name : string) (first : Box) (later : list Box) :
  tracks name (AnimatedSprite.lastBox first later)
         (facing AnimatedSprite.down first later) (moves first later)
         (lifetime name first later).
Proof.
  unfold AnimatedSprite.lifetime, AnimatedSprite.lastBox.
  apply (updates_track name later _ first AnimatedSprite.down 0).
  apply onSpawn_tracks.
Qed.

(** After being spawned and after every update the component's current
    sprite is alive and its [x] and [y] are exactly the [x] and [y] the
    hitbox had at that call, also when the update has just replaced the
    sprite. *)
Theorem sprite_is_snapped_to_the_hitbox :
  forall (name : string) (first : Box) (later : list Box),
    exists s,
      AnimatedSprite.currentSprite (lifetime name first later) = Some s
      /\ AnimatedSprite.x (AnimatedSprite.box s)
         = AnimatedSprite.x (AnimatedSprite.lastBox first later)
      /\ AnimatedSprite.y (AnimatedSprite.box s)
         = AnimatedSprite.y (AnimatedSprite.lastBox first later)
      /\ AnimatedSprite.destroyed s = false.
Proof.
  intros name first later.
  destruct (lifetime_tracks name first later) as (_ & Hcur & _ & _ & Hnth & _).
  eexists. unfold AnimatedSprite.currentSprite. rewrite Hcur.
  split; [exact Hnth|]. repeat split; reflexivity.
Qed.

Lemma lifetime_last (name : string) (first : Box) (later : list Box)
      (hitbox : Box) :
  lifetime name first (later ++ [hitbox])
  = update hitbox (lifetime name first later).
Proof. unfold AnimatedSprite.lifetime. rewrite fold_left_app. reflexivity. Qed.

(** With [a > b] the same as [b < a]: a component that has only been
    spawned shows [`${filename}_down`]; an update shows the animation of
    the way the hitbox has gone since the previous call, [left] when its [x]
    has become less, [right] when its [x] has become greater, and only when
    its [x] is neither, [up] when its [y] has become less and [down] when
    its [y] has become greater; an update that finds none of the four
    leaves the animation as it was. *)
Theorem sprite_faces_the_last_move :
  (forall a b, gtb a b = ltb b a) ->
  forall (name : string) (first : Box) (later : list Box) (hitbox : Box),
    let previous := AnimatedSprite.lastBox first later in
    let xLess := ltb (AnimatedSprite.x hitbox) (AnimatedSprite.x previous) in
    let xGreater := ltb (AnimatedSprite.x previous) (AnimatedSprite.x hitbox) in
    let yLess := ltb (AnimatedSprite.y hitbox) (AnimatedSprite.y previous) in
    let yGreater := ltb (AnimatedSprite.y previous) (AnimatedSprite.y hitbox) in
    exists before after,
      AnimatedSprite.currentSprite (lifetime name first later) = Some before
      /\ AnimatedSprite.currentSprite (lifetime name first (later ++ [hitbox]))
         = Some after
      /\ (later = [] ->
          AnimatedSprite.animation before
          = AnimatedSprite.animationKey name AnimatedSprite.down)
      /\ (xLess = true ->
          AnimatedSprite.animation after
          = AnimatedSprite.animationKey name AnimatedSprite.left)
      /\ (xLess = false -> xGreater = true ->
          AnimatedSprite.animation after
          = AnimatedSprite.animationKey name AnimatedSprite.right)
      /\ (xLess = false -> xGreater = false -> yLess = true ->
          AnimatedSprite.animation after
          = AnimatedSprite.animationKey name AnimatedSprite.up)
      /\ (xLess = false -> xGreater = false -> yLess = false ->
          yGreater = true ->
          AnimatedSprite.animation after
          = AnimatedSprite.animationKey name AnimatedSprite.down)
      /\ (xLess = false -> xGreater = false -> yLess = false ->
          yGreater = false ->
          AnimatedSprite.animation after = AnimatedSprite.animation before).
Proof.
  intros Hflip name first later hitbox previous xLess xGreater yLess yGreater.
  pose proof (lifetime_tracks name first later) as Hbefore.
  pose proof (update_tracks name previous hitbox _ _ _ Hbefore) as Hafter.
  rewrite <- lifetime_last in Hafter.
  destruct Hbefore as (_ & Hcur & _ & _ & Hnth & _).
  destruct Hafter as (_ & Hcur' & _ & _ & Hnth' & _).
  eexists. eexists.
  unfold AnimatedSprite.currentSprite. rewrite Hcur, Hcur'.
  split; [exact Hnth|]. split; [exact Hnth'|].
  cbn [AnimatedSprite.animation].
  unfold AnimatedSprite.newDirection. rewrite !Hflip.
  fold xLess xGreater yLess yGreater.
  split; [intros ->; reflexivity|].
  split; [intros ->; reflexivity|].
  split; [intros -> ->; reflexivity|].
  split; [intros -> -> ->; reflexivity|].
  split; [intros -> -> -> ->; reflexivity|].
  intros -> -> -> ->. reflexivity.
Qed.

(** The component constructs one sprite and then one more for every update
    that finds the hitbox moved, even in an unchanged direction; each sprite
    is added to the viewport exactly once, and every sprite but the current
    one has been destroyed. *)
Theorem sprites_are_replaced_not_leaked :
  forall (name : string) (first : Box) (later : list Box),
    let c := lifetime name first later in
    length (AnimatedSprite.sprites c) = S (moves first later)
    /\ AnimatedSprite.sprite c = moves first later
    /\ AnimatedSprite.stage c = seq 0 (length (AnimatedSprite.sprites c))
    /\ (forall k s, k <> AnimatedSprite.sprite c ->
                    nth_error (AnimatedSprite.sprites c) k = Some s ->
                    AnimatedSprite.destroyed s = true).
Proof.
  intros name first later c.
  destruct (lifetime_tracks name first later)
    as (_ & Hcur & Hlen & Hstage & Hnth & Hold).
  fold c in Hcur, Hlen, Hstage, Hnth, Hold.
  split; [exact Hlen|]. split; [exact Hcur|].
  split; [rewrite Hlen; exact Hstage|].
  intros k s Hk Hs.
  assert (Hlt : k < length (AnimatedSprite.sprites c)).
  { apply nth_error_Some. congruence. }
  destruct (Hold k) as (s' & Hs' & Hd); [lia|]. congruence.
Qed.

(** When no number is greater or less than itself, an update that finds the
    hitbox where the last call left it changes nothing: no sprite is
    destroyed or constructed. *)
Theorem update_without_movement_changes_nothing :
  (forall a, gtb a a = false) ->
  (forall a, ltb a a = false) ->
  forall (name : string) (first : Box) (later : list Box),
    update (AnimatedSprite.lastBox first later) (lifetime name first later)
    = lifetime name first later.
Proof.
  intros Hgt Hlt name first later.
  destruct (lifetime_tracks name first later)
    as (_ & Hcur & _ & _ & Hnth & _).
  set (c := lifetime name first later) in *.
  set (hitbox := AnimatedSprite.lastBox first later) in *.
  unfold AnimatedSprite.update, AnimatedSprite.updateDirection,
    AnimatedSprite.currentSprite.
  rewrite Hcur, Hnth. cbn [AnimatedSprite.box].
  unfold AnimatedSprite.newDirection. rewrite !Hgt, !Hlt.
  unfold AnimatedSprite.snapToEntity, AnimatedSprite.currentSprite.
  rewrite Hcur, Hnth. cbn [AnimatedSprite.animation AnimatedSprite.destroyed].
  rewrite box_eta, (list_set_same _ _ _ Hnth), <- Hcur.
  destruct c. reflexivity.
Qed.

End AnimatedSpriteFacts.

Lemma sprite_faces_the_last_move_witness :
  let box := AnimatedSprite.mkBox in
  let textureBox := fun _ : string => box 0%Z 0%Z 32%Z 32%Z in
  exists s,
    AnimatedSprite.currentSprite
      (AnimatedSprite.lifetime Z.gtb Z.ltb textureBox "cat" (box 5%Z 5%Z 32%Z 32%Z)
         ([box 5%Z 9%Z 32%Z 32%Z] ++ [box 3%Z 2%Z 32%Z 32%Z])) = Some s
    /\ AnimatedSprite.animation s = "cat_left"%string.
Proof.
  intros box textureBox.
  destruct (sprite_faces_the_last_move Z.gtb Z.ltb textureBox Z.gtb_ltb
              "cat"%string (box 5%Z 5%Z 32%Z 32%Z) [box 5%Z 9%Z 32%Z 32%Z]
              (box 3%Z 2%Z 32%Z 32%Z))
    as (before & after & _ & Hafter & _ & Hleft & _).
  exists after. split; [exact Hafter|]. apply Hleft. reflexivity.
Defined.

Lemma update_without_movement_changes_nothing_witness :
  let box := AnimatedSprite.mkBox in
  let textureBox := fun _ : string => box 0%Z 0%Z 32%Z 32%Z in
  AnimatedSprite.update Z.gtb Z.ltb textureBox (box 10%Z 7%Z 32%Z 32%Z)
    (AnimatedSprite.lifetime Z.gtb Z.ltb textureBox "cat" (box 5%Z 5%Z 32%Z 32%Z)
       [box 5%Z 7%Z 32%Z 32%Z; box 10%Z 7%Z 32%Z 32%Z])
  = AnimatedSprite.lifetime Z.gtb Z.ltb textureBox "cat" (box 5%Z 5%Z 32%Z 32%Z)
      [box 5%Z 7%Z 32%Z 32%Z; box 10%Z 7%Z 32%Z 32%Z].
Proof.
  intros box textureBox.
  apply (update_without_movement_changes_nothing Z.gtb Z.ltb textureBox
           (fun a => eq_trans (Z.gtb_ltb a a) (Z.ltb_irrefl a))
           Z.ltb_irrefl "cat"%string (box 5%Z 5%Z 32%Z 32%Z)
           [box 5%Z 7%Z 32%Z 32%Z; box 10%Z 7%Z 32%Z 32%Z]).
Defined.

(** ** More of the frame *)

Section MoreFrameFacts.

Context {Delta Hitbox : Type} {ext : Externals Delta Hitbox}.

(** A running frame makes its calls in four blocks: [update] on every
    entity that is in the collection when the frame starts, in collection
    order, marked deleted or not; [destroy] on exactly the entities marked
    deleted when the update pass has ended; the calls of the collision
    pass; [lateUpdate] on every entity that is in the collection when the
    collision pass has ended, in collection order. *)
Theorem frame_calls_come_in_four_blocks :
  forall (deltaMS : Delta) (w : World),
    isGameOver w = false ->
    exists collisions,
      snd (update deltaMS w)
      = map EvUpdate (entities w)
        ++ map EvDestroy (filter (deleted (afterUpdatePass deltaMS w))
                                 (entities (afterUpdatePass deltaMS w)))
        ++ collisions
        ++ map EvLateUpdate (entities (afterCollisions deltaMS w))
      /\ Forall isCollisionEvent collisions.
Proof.
  intros deltaMS w Hrun.
  exists (snd (detectCollisions (compact (afterDestroyPass deltaMS w)))).
  split.
  - rewrite (update_running deltaMS w Hrun). apply frame_trace.
  - apply (detectCollisions_invariant (fun _ => True)); auto.
Qed.

Lemma destroyPass_local (w : World) :
  destroyIsLocal ->
  entities (fst (destroyPass w)) = entities w
  /\ (forall x, deleted (fst (destroyPass w)) x = deleted w x).
Proof.
  intros Hd.
  apply (destroyPass_keeps
           (fun v => entities v = entities w
                     /\ (forall x, deleted v x = deleted w x))).
  - intros e v [He Hx]. destruct (Hd e v) as [He' Hx'].
    split; [congruence|]. intros x. rewrite Hx'. apply Hx.
  - auto.
Qed.

(** When [destroy] changes neither the collection nor a flag, the two
    filters of a frame agree: of the entities in the collection after the
    update pass, the ones marked deleted are destroyed and removed, the
    others are kept, in their order, and are not destroyed. *)
Theorem destroyed_entities_are_the_removed_ones :
  forall (deltaMS : Delta) (w : World),
    destroyIsLocal ->
    isGameOver w = false ->
    collisionSnapshot deltaMS w
    = filter (fun e => negb (deleted (afterUpdatePass deltaMS w) e))
             (entities (afterUpdatePass deltaMS w))
    /\ (forall e,
           In e (entities (afterUpdatePass deltaMS w)) ->
           (In (EvDestroy e) (snd (update deltaMS w))
            <-> ~ In e (collisionSnapshot deltaMS w))).
Proof.
  intros deltaMS w Hd Hrun.
  destruct (destroyPass_local (afterUpdatePass deltaMS w) Hd) as [He Hx].
  assert (Hsnap : collisionSnapshot deltaMS w
                  = filter (fun e => negb (deleted (afterUpdatePass deltaMS w) e))
                           (entities (afterUpdatePass deltaMS w))).
  { unfold collisionSnapshot, afterDestroyPass. simpl. rewrite He.
    apply filter_ext. intros e. rewrite Hx. reflexivity. }
  split; [exact Hsnap|].
  intros e Hin. rewrite Hsnap, (update_running deltaMS w Hrun), frame_trace.
  rewrite !in_app_iff, !in_map_iff, filter_In.
  split.
  - intros [H|[H|[H|H]]] [_ Hlive].
    + destruct H as (x & Hx' & _). discriminate Hx'.
    + destruct H as (x & Hx' & Hf). injection Hx' as ->.
      apply filter_In in Hf. destruct Hf as [_ Hf].
      rewrite Hf in Hlive. discriminate Hlive.
    + pose proof (proj2 (detectCollisions_invariant (fun _ => True)
                           (fun _ _ _ _ => I)
                           (compact (afterDestroyPass deltaMS w)) I)) as Hc.
      rewrite Forall_forall in Hc. exact (Hc _ H).
    + destruct H as (x & Hx' & _). discriminate Hx'.
  - intros Hnot. right. left. exists e. split; [reflexivity|].
    apply filter_In. split; [exact Hin|].
    destruct (deleted (afterUpdatePass deltaMS w) e) eqn:E; [reflexivity|].
    exfalso. apply Hnot. split; [exact Hin|reflexivity].
Qed.

(** A collision pass over fewer than two entities calls nothing and
    changes nothing. *)
Theorem detectCollisions_needs_two_entities :
  forall (w : World),
    length (entities w) <= 1 -> detectCollisions w = (w, []).
Proof.
  intros w H. unfold detectCollisions.
  destruct (entities w) as [|e [|e' l]]; simpl in H; try lia.
  - reflexivity.
  - cbn [length seq]. rewrite for_cons.
    assert (E : outerBody [e] 0 w = (w, [])).
    { unfold outerBody. cbn [nth_error length Nat.sub seq for_].
      destruct (deleted w e); reflexivity. }
    rewrite E. reflexivity.
Qed.

(** In a collection without duplicates no entity is tested against itself
    or notified of a collision with itself: the two indices of every
    collision call are indices of two different entities. *)
Theorem no_entity_collides_with_itself :
  forall (w : World),
    NoDup (entities w) ->
    forall ev, In ev (snd (detectCollisions w)) ->
      exists i j e1 e2,
        (ev = EvCollidedWith i j \/ exists b, ev = EvIntersects i j b)
        /\ nth_error (entities w) i = Some e1
        /\ nth_error (entities w) j = Some e2
        /\ e1 <> e2.
Proof.
  intros w Hnd ev Hin.
  pose proof (detectCollisions_owner w) as Hown.
  rewrite Forall_forall in Hown.
  destruct (Hown ev Hin) as (a & b & Hab & Hev).
  assert (Hdiff : forall i j e1 e2,
             i <> j -> i < length (entities w) ->
             nth_error (entities w) i = Some e1 ->
             nth_error (entities w) j = Some e2 -> e1 <> e2).
  { intros i j e1 e2 Hij Hi H1 H2 ->.
    apply Hij. apply (proj1 (NoDup_nth_error (entities w)) Hnd i j Hi).
    congruence. }
  destruct ev as [| | | | | |i j t|i j|]; simpl in Hev; try discriminate Hev.
  - injection Hev as -> ->.
    destruct (nth_error (entities w) a) as [e1|] eqn:E1;
      [|apply nth_error_None in E1; lia].
    destruct (nth_error (entities w) b) as [e2|] eqn:E2;
      [|apply nth_error_None in E2; lia].
    exists a, b, e1, e2. split; [right; exists t; reflexivity|].
    split; [exact E1|]. split; [exact E2|].
    apply (Hdiff a b); auto; lia.
  - injection Hev as Hmin Hmax.
    assert (Hi : i < length (entities w)) by lia.
    assert (Hj : j < length (entities w)) by lia.
    assert (Hne : i <> j) by lia.
    destruct (nth_error (entities w) i) as [e1|] eqn:E1;
      [|apply nth_error_None in E1; lia].
    destruct (nth_error (entities w) j) as [e2|] eqn:E2;
      [|apply nth_error_None in E2; lia].
    exists i, j, e1, e2. split; [left; reflexivity|].
    split; [exact E1|]. split; [exact E2|].
    apply (Hdiff i j); auto.
Qed.

End MoreFrameFacts.

Lemma frame_calls_come_in_four_blocks_witness :
  exists collisions,
    snd (update (ext := caught) 16%Z (worldOf [0; 1; 2]))
    = map EvUpdate (entities (worldOf [0; 1; 2]))
      ++ map EvDestroy
           (filter (deleted (afterUpdatePass (ext := caught) 16%Z (worldOf [0; 1; 2])))
                   (entities (afterUpdatePass (ext := caught) 16%Z (worldOf [0; 1; 2]))))
      ++ collisions
      ++ map EvLateUpdate
           (entities (afterCollisions (ext := caught) 16%Z (worldOf [0; 1; 2])))
    /\ Forall isCollisionEvent collisions.
Proof.
  apply (frame_calls_come_in_four_blocks (ext := caught) 16%Z (worldOf [0; 1; 2])).
  reflexivity.
Defined.

Lemma stillborn_destroyIsLocal : destroyIsLocal (ext := stillborn).
Proof. intros e w. simpl. auto. Qed.

Lemma destroyed_entities_are_the_removed_ones_witness :
  In (EvDestroy 5) (snd (update (ext := stillborn) 16%Z (worldOf [0; 1])))
  <-> ~ In 5 (collisionSnapshot (ext := stillborn) 16%Z (worldOf [0; 1])).
Proof.
  apply (proj2 (destroyed_entities_are_the_removed_ones
                  (ext := stillborn) 16%Z (worldOf [0; 1])
                  stillborn_destroyIsLocal eq_refl) 5).
  vm_compute. right. right. left. reflexivity.
Defined.

Lemma detectCollisions_needs_two_entities_witness :
  detectCollisions (ext := caught) (worldOf [7]) = (worldOf [7], []).
Proof.
  apply (detectCollisions_needs_two_entities (ext := caught) (worldOf [7])).
  simpl. lia.
Defined.

Lemma no_entity_collides_with_itself_witness :
  exists i j e1 e2,
    (EvCollidedWith 2 0 = EvCollidedWith i j
     \/ exists b, EvCollidedWith 2 0 = EvIntersects i j b)
    /\ nth_error (entities (worldOf [0; 1; 2])) i = Some e1
    /\ nth_error (entities (worldOf [0; 1; 2])) j = Some e2
    /\ e1 <> e2.
Proof.
  apply (no_entity_collides_with_itself (ext := caught) (worldOf [0; 1; 2])).
  - repeat constructor; simpl; intuition discriminate.
  - vm_compute. do 5 right. left. reflexivity.
Defined.

(** ** The keyup listeners and the reset *)

Lemma resets_app (t1 t2 : list Event) :
  resets (t1 ++ t2) = resets t1 + resets t2.
Proof. apply count_occ_app. Qed.

Lemma resets_none (tr : list Event) :
  Forall (fun ev => ev <> EvNewGameState) tr -> resets tr = 0.
Proof.
  intros H. apply count_occ_not_In. intros Hin.
  rewrite Forall_forall in H. exact (H _ Hin eq_refl).
Qed.

Lemma nth_list_set {A : Type} (k k' : nat) (a d : A) (l : list A) :
  k < length l ->
  nth k' (list_set k a l) d = if Nat.eqb k' k then a else nth k' l d.
Proof.
  revert k k'. induction l as [|x l IH]; intros k k' H; simpl in H; [lia|].
  destruct k as [|k], k' as [|k']; simpl; try reflexivity.
  apply IH. lia.
Qed.

Lemma nth_all_true (l : list bool) (k : nat) :
  nth k (map (fun _ : bool => true) l) true = true.
Proof.
  revert k. induction l as [|b l IH]; intros [|k]; simpl; auto.
Qed.

Lemma for_idle_while {A : Type} (P : World -> Prop) (l : list A)
      (body : A -> Pass) :
  (forall a w, P w -> body a w = (w, [])) ->
  forall w, P w -> for_ l body w = (w, []).
Proof.
  intros Hbody. induction l as [|a l IH]; intros w Hw.
  - reflexivity.
  - rewrite for_cons, (Hbody a w Hw). simpl. rewrite (IH w Hw). reflexivity.
Qed.

Lemma unspent_by_index (l : list bool) :
  forall a,
    length (filter (fun k => negb (nth (k - a) l true)) (seq a (length l)))
    = unspent l.
Proof.
  unfold unspent. induction l as [|b l IH]; intros a.
  - reflexivity.
  - assert (E : filter (fun k => negb (nth (k - a) (b :: l) true))
                       (seq (S a) (length l))
                = filter (fun k => negb (nth (k - S a) l true))
                         (seq (S a) (length l))).
    { apply filter_ext_in. intros k Hk. apply in_seq in Hk.
      replace (k - a) with (S (k - S a)) by lia. reflexivity. }
    cbn [length seq filter]. rewrite E, Nat.sub_diag.
    change (nth 0 (b :: l) true) with b.
    destruct (negb b); cbn [length]; rewrite IH; reflexivity.
Qed.

Section ListenerFacts.

Context {Delta Hitbox : Type} {ext : Externals Delta Hitbox}.

Lemma for_one {A : Type} (a : A) (body : A -> Pass) (w : World) :
  for_ [a] body w = body a w.
Proof.
  rewrite for_cons. simpl. rewrite app_nil_r.
  destruct (body a w). reflexivity.
Qed.

Lemma andThen_for {A : Type} (l1 l2 : list A) (body : A -> Pass) (w : World) :
  (for_ l1 body >> for_ l2 body) w = for_ (l1 ++ l2) body w.
Proof. rewrite andThen_run, for_app. reflexivity. Qed.

Lemma andThen_ext (p p' q q' : Pass) :
  (forall w, p w = p' w) -> (forall w, q w = q' w) ->
  forall w, (p >> q) w = (p' >> q') w.
Proof. intros Hp Hq w. rewrite !andThen_run, Hp, Hq. reflexivity. Qed.

(** [initEntities] is a loop of [build] over the configured blueprints. *)
Lemma initEntities_as_loop (w : World) :
  initEntities w = for_ blueprints build w.
Proof.
  revert w. unfold initEntities, blueprints.
  intros w. rewrite <- andThen_for. revert w. apply andThen_ext;
    [|intros w; destruct cfg_rightTable_enabled;
      [symmetry; apply for_one|reflexivity]].
  intros w. rewrite <- andThen_for. revert w. apply andThen_ext;
    [|intros w; destruct cfg_leftTable_enabled;
      [symmetry; apply for_one|reflexivity]].
  intros w. rewrite <- andThen_for. revert w. apply andThen_ext;
    [|intros w; symmetry; apply for_one].
  intros w. rewrite <- andThen_for. revert w. apply andThen_ext;
    [|intros w; symmetry; apply for_one].
  intros w. rewrite <- andThen_for. revert w. apply andThen_ext;
    [intros w; symmetry; apply for_one|].
  intros w. destruct cfg_dog_enabled; [symmetry; apply for_one|reflexivity].
Qed.

Lemma initEntities_invariant (P : World -> Prop) (Q : Event -> Prop) :
  (forall b w, P w -> P (fst (build b w)) /\ Forall Q (snd (build b w))) ->
  forall w, P w -> P (fst (initEntities w)) /\ Forall Q (snd (initEntities w)).
Proof.
  intros Hb w Hw. rewrite initEntities_as_loop.
  apply for_invariant; [|exact Hw]. intros b v _. apply Hb.
Qed.

Lemma destroyAll_invariant (P : World -> Prop) :
  (forall e v, P v -> P (Entity_destroy e v)) ->
  forall w, P w ->
       P (fst (destroyAll w))
       /\ Forall (fun ev => ev <> EvNewGameState) (snd (destroyAll w)).
Proof.
  intros Hd w Hw. unfold destroyAll.
  apply for_invariant; [|exact Hw]. intros k v _ Hv.
  destruct (nth_error (entities v) k) as [e|]; simpl.
  - split; [apply Hd; exact Hv|]. repeat constructor. discriminate.
  - auto.
Qed.

(** What every [destroy] and every [spawn] keeps, and the construction of
    an entity and the assignments of the world keep, the reset keeps up to
    its own two assignments. *)
Lemma reset_world (w : World) :
  fst (reset w)
  = fst (initEntities
           (set_state newGameState (set_entities [] (fst (destroyAll w))))).
Proof. unfold reset. rewrite !andThen_run. reflexivity. Qed.

Lemma reset_trace (w : World) :
  snd (reset w)
  = snd (destroyAll w)
    ++ [EvNewGameState]
    ++ snd (initEntities
              (set_state newGameState (set_entities [] (fst (destroyAll w))))).
Proof.
  unfold reset. rewrite !andThen_run. unfold lift, call. cbn [fst snd].
  rewrite app_nil_r, <- !app_assoc. reflexivity.
Qed.

Lemma build_calls (b : Blueprint) (w : World) :
  Forall (fun ev => ev <> EvNewGameState) (snd (build b w)).
Proof. unfold build. simpl. repeat constructor; discriminate. Qed.

(** One run of the reset replaces the game state exactly once. *)
Lemma reset_resets_once (w : World) : resets (snd (reset w)) = 1.
Proof.
  rewrite reset_trace, !resets_app.
  rewrite (resets_none (snd (destroyAll w))).
  - rewrite (resets_none (snd (initEntities _))); [reflexivity|].
    apply (initEntities_invariant (fun _ => True)); [|exact I].
    intros b v _. split; [exact I|apply build_calls].
  - apply (destroyAll_invariant (fun _ => True)); auto.
Qed.

Lemma reset_keeps_listeners (w : World) :
  listenersArePrivate -> listeners (fst (reset w)) = listeners w.
Proof.
  intros [Hs Hd]. rewrite reset_world.
  assert (H1 : listeners (fst (destroyAll w)) = listeners w).
  { apply (destroyAll_invariant (fun v => listeners v = listeners w));
      [|reflexivity].
    intros e v Hv. rewrite Hd. exact Hv. }
  rewrite <- H1.
  apply (initEntities_invariant
           (fun v => listeners v = listeners (fst (destroyAll w)))
           (fun _ => True)); [|reflexivity].
  intros b v Hv. split; [|apply Forall_forall; auto].
  unfold build. simpl. rewrite Hs. exact Hv.
Qed.

Lemma reset_state (w : World) :
  spawnKeepsState -> state (fst (reset w)) = newGameState.
Proof.
  intros Hs. rewrite reset_world.
  apply (initEntities_invariant (fun v => state v = newGameState)
                                (fun _ => True)); [|reflexivity].
  intros b v Hv. split; [|apply Forall_forall; auto].
  unfold build. simpl. rewrite Hs. exact Hv.
Qed.

(** One listener on a Space keyup: it runs the reset if its guard is
    [false] and sets the guard. *)
Lemma listener_step (k : nat) (w : World) :
  listenersArePrivate ->
  length (listeners (fst (listener k "Space" w))) = length (listeners w)
  /\ (forall k', nth k' (listeners (fst (listener k "Space" w))) true
                 = if Nat.eqb k' k then true else nth k' (listeners w) true)
  /\ resets (snd (listener k "Space" w))
     = if nth k (listeners w) true then 0 else 1.
Proof.
  intros Hp. unfold listener. cbn [String.eqb Ascii.eqb Bool.eqb andb].
  destruct (nth k (listeners w) true) eqn:E; cbn [negb].
  - simpl. split; [reflexivity|]. split; [|reflexivity].
    intros k'. destruct (Nat.eqb_spec k' k) as [->|]; [exact E|reflexivity].
  - assert (Hk : k < length (listeners w)).
    { destruct (Nat.lt_ge_cases k (length (listeners w))) as [H|H]; [exact H|].
      rewrite nth_overflow in E by exact H. discriminate E. }
    rewrite andThen_run. unfold lift. cbn [fst snd].
    rewrite (reset_keeps_listeners w Hp), app_nil_r.
    simpl listeners.
    split; [apply list_set_length|].
    split; [intros k'; apply nth_list_set; exact Hk|].
    apply reset_resets_once.
Qed.

Lemma keyup_loop (m : nat) :
  listenersArePrivate ->
  forall (a : nat) (w : World),
    let r := for_ (seq a m) (fun k => listener k "Space") w in
    length (listeners (fst r)) = length (listeners w)
    /\ (forall k, nth k (listeners (fst r)) true
                  = if Nat.leb a k && Nat.ltb k (a + m) then true
                    else nth k (listeners w) true)
    /\ resets (snd r)
       = length (filter (fun k => negb (nth k (listeners w) true)) (seq a m)).
Proof.
  intros Hp. induction m as [|m IH]; intros a w r.
  - subst r. simpl. split; [reflexivity|]. split; [|reflexivity].
    intros k. destruct (Nat.leb a k && Nat.ltb k (a + 0)) eqn:E; [|reflexivity].
    apply andb_true_iff in E. destruct E as [E1 E2].
    apply Nat.leb_le in E1. apply Nat.ltb_lt in E2. lia.
  - subst r. cbn [seq]. rewrite for_cons. cbn [fst snd].
    destruct (listener_step a w Hp) as (Hlen & Hnth & Hres).
    destruct (IH (S a) (fst (listener a "Space" w))) as (IHlen & IHnth & IHres).
    split; [congruence|]. split.
    + intros k. rewrite IHnth, Hnth.
      destruct (Nat.leb_spec (S a) k), (Nat.ltb_spec k (S a + m)),
        (Nat.leb_spec a k), (Nat.ltb_spec k (a + S m)), (Nat.eqb_spec k a);
        simpl; try reflexivity; lia.
    + rewrite resets_app, Hres, IHres. cbn [filter].
      assert (E : filter (fun k => negb (nth k (listeners (fst (listener a "Space" w))) true))
                         (seq (S a) m)
                  = filter (fun k => negb (nth k (listeners w) true)) (seq (S a) m)).
      { apply filter_ext_in. intros k Hk. apply in_seq in Hk.
        rewrite Hnth. destruct (Nat.eqb_spec k a); [lia|reflexivity]. }
      rewrite E. destruct (nth a (listeners w) true); reflexivity.
Qed.

(** One Space keyup runs the reset once for every listener whose guard is
    still [false], that is once for every [update()] call made while the
    game was over since the last Space keyup; afterwards every guard is
    set, and a further Space keyup finds nothing to do. *)
Theorem space_keyup_spends_every_listener :
  listenersArePrivate ->
  forall (w : World),
    resets (snd (keyup "Space" w)) = unspent (listeners w)
    /\ listeners (fst (keyup "Space" w)) = map (fun _ => true) (listeners w)
    /\ keyup "Space" (fst (keyup "Space" w)) = (fst (keyup "Space" w), []).
Proof.
  intros Hp w.
  destruct (keyup_loop (length (listeners w)) Hp 0 w) as (Hlen & Hnth & Hres).
  fold (keyup "Space" w) in Hlen, Hnth, Hres.
  assert (Hall : listeners (fst (keyup "Space" w))
                 = map (fun _ => true) (listeners w)).
  { apply (nth_ext _ _ true true); [rewrite length_map; exact Hlen|].
    intros k Hk. rewrite Hnth, nth_all_true.
    destruct (Nat.leb 0 k && Nat.ltb k (0 + length (listeners w))) eqn:E;
      [reflexivity|].
    apply andb_false_iff in E. destruct E as [E|E].
    - apply Nat.leb_gt in E. lia.
    - apply Nat.ltb_ge in E. simpl in E. lia. }
  split; [|split; [exact Hall|]].
  - rewrite Hres, <- (unspent_by_index (listeners w) 0).
    f_equal. apply filter_ext. intros k. rewrite Nat.sub_0_r. reflexivity.
  - unfold keyup at 1.
    apply (for_idle_while
             (fun v => listeners v = map (fun _ => true) (listeners w)));
      [|exact Hall].
    intros k v Hv. unfold listener. rewrite Hv, nth_all_true.
    rewrite andb_false_r. reflexivity.
Qed.

(** A Space keyup that finds at least one listener with its guard still
    [false] leaves a new GameState behind, three lives and no score, so
    that the game is no longer over. *)
Theorem space_keyup_restarts_the_game :
  listenersArePrivate ->
  spawnKeepsState ->
  forall (w : World),
    In false (listeners w) ->
    state (fst (keyup "Space" w)) = newGameState
    /\ isGameOver (fst (keyup "Space" w)) = false.
Proof.
  intros Hp Hs w Hin.
  assert (Hstate : state (fst (keyup "Space" w)) = newGameState).
  { destruct (In_nth _ _ true Hin) as (k & Hk & Hfalse).
    unfold keyup.
    replace (length (listeners w))
      with (k + S (length (listeners w) - S k)) by lia.
    rewrite seq_split, for_app, for_cons. cbn [fst]. simpl Nat.add.
    set (w1 := fst (for_ (seq 0 k) (fun i => listener i "Space") w)).
    assert (Hflag : nth k (listeners w1) true = false).
    { destruct (keyup_loop k Hp 0 w) as (_ & Hnth & _). fold w1 in Hnth.
      rewrite Hnth.
      destruct (Nat.leb 0 k && Nat.ltb k (0 + k)) eqn:E; [|exact Hfalse].
      apply andb_true_iff in E. destruct E as [_ E].
      apply Nat.ltb_lt in E. lia. }
    apply (for_keeps (fun v => state v = newGameState)).
    - intros i v _ Hv. unfold listener.
      destruct (String.eqb "Space" "Space" && negb (nth i (listeners v) true));
        [|exact Hv].
      rewrite andThen_run. unfold lift. cbn [fst]. simpl state.
      apply reset_state. exact Hs.
    - unfold listener. rewrite Hflag.
      cbn [String.eqb Ascii.eqb Bool.eqb andb negb].
      rewrite andThen_run. unfold lift. cbn [fst]. simpl state.
      apply reset_state. exact Hs. }
  split; [exact Hstate|].
  unfold isGameOver. rewrite Hstate. reflexivity.
Qed.

End ListenerFacts.

(** ** What initEntities and the reset build *)

Section BuildFacts.

Context {Delta Hitbox : Type} {ext : Externals Delta Hitbox}.

Hypothesis local : spawnIsLocal.

Lemma build_spec (b : Blueprint) (w : World) :
  let w' := fst (build b w) in
  let e := allocated w in
  entities w' = entities w ++ [e]
  /\ count w' = (count w + 1)%Z
  /\ allocated w' = S e
  /\ entityId w' e = Some (count w)
  /\ deleted w' e = false
  /\ blueprint w' e = Some b
  /\ (forall x, x <> e ->
                entityId w' x = entityId w x
                /\ deleted w' x = deleted w x
                /\ blueprint w' x = blueprint w x).
Proof.
  intros w' e. subst w'. unfold build.
  change (fst (let '(e0, w2) := newEntity b w in addEntity e0 w2))
    with (fst (addEntity e (snd (newEntity b w)))).
  remember (snd (newEntity b w)) as w1 eqn:Hw1.
  assert (F1 : entities w1 = entities w) by (rewrite Hw1; reflexivity).
  assert (F2 : count w1 = count w) by (rewrite Hw1; reflexivity).
  assert (F3 : allocated w1 = S e) by (rewrite Hw1; reflexivity).
  assert (F4 : forall x, deleted w1 x
                         = if Nat.eqb x e then false else deleted w x)
    by (rewrite Hw1; reflexivity).
  assert (F5 : forall x, entityId w1 x
                         = if Nat.eqb x e then None else entityId w x)
    by (rewrite Hw1; reflexivity).
  assert (F6 : forall x, blueprint w1 x
                         = if Nat.eqb x e then Some b else blueprint w x)
    by (rewrite Hw1; reflexivity).
  clear Hw1.
  destruct (local e w1) as (He & Hc & Ha & Hd & Hi & Hb).
  unfold addEntity. cbn [fst].
  cbn [set_entities set_count set_entityId entities count allocated entityId
       deleted blueprint state listeners].
  rewrite He, Hc, Ha, F1, F2, F3, Hd, Hb, F4, F6, !Nat.eqb_refl.
  repeat split; try reflexivity.
  - destruct (Nat.eqb_spec x e) as [|_]; [contradiction|].
    rewrite Hi, F5. destruct (Nat.eqb_spec x e); [contradiction|reflexivity].
  - rewrite Hd, F4. destruct (Nat.eqb_spec x e); [contradiction|reflexivity].
  - rewrite Hb, F6. destruct (Nat.eqb_spec x e); [contradiction|reflexivity].
Qed.

Lemma builds_spec (bs : list Blueprint) :
  forall (w : World),
    let w' := fst (for_ bs build w) in
    entities w' = entities w ++ seq (allocated w) (length bs)
    /\ count w' = (count w + Z.of_nat (length bs))%Z
    /\ allocated w' = allocated w + length bs
    /\ (forall k b, nth_error bs k = Some b ->
                    blueprint w' (allocated w + k) = Some b
                    /\ entityId w' (allocated w + k) = Some (count w + Z.of_nat k)%Z
                    /\ deleted w' (allocated w + k) = false)
    /\ (forall x, x < allocated w ->
                  entityId w' x = entityId w x
                  /\ deleted w' x = deleted w x
                  /\ blueprint w' x = blueprint w x).
Proof.
  induction bs as [|b bs IH]; intros w w'.
  - subst w'. simpl. rewrite app_nil_r, Z.add_0_r, Nat.add_0_r.
    split; [reflexivity|]. split; [reflexivity|]. split; [reflexivity|].
    split; [intros [|k] b0 H; discriminate H|]. intros x _. auto.
  - subst w'. rewrite for_cons. cbn [fst].
    destruct (build_spec b w) as (He & Hc & Ha & Hi & Hd & Hb & Hframe).
    cbv zeta in He, Hc, Ha, Hi, Hd, Hb, Hframe.
    destruct (IH (fst (build b w))) as (IHe & IHc & IHa & IHk & IHframe).
    cbv zeta in IHe, IHc, IHa, IHk, IHframe.
    rewrite Ha in IHe, IHa, IHk, IHframe. rewrite He in IHe. rewrite Hc in IHc, IHk.
    split; [rewrite IHe, <- app_assoc; reflexivity|].
    split; [rewrite IHc; cbn [length]; lia|].
    split; [rewrite IHa; cbn [length]; lia|].
    split.
    + intros [|k] b' Hk.
      * injection Hk as <-. rewrite Nat.add_0_r.
        destruct (IHframe (allocated w)) as (A & B & C); [lia|].
        rewrite A, B, C, Hi, Hd, Hb. rewrite Z.add_0_r. auto.
      * cbn [nth_error] in Hk. destruct (IHk k b' Hk) as (A & B & C).
        replace (allocated w + S k) with (S (allocated w) + k) by lia.
        rewrite A, B, C. repeat split. f_equal. lia.
    + intros x Hx.
      destruct (IHframe x) as (A & B & C); [lia|].
      destruct (Hframe x) as (A' & B' & C'); [lia|].
      rewrite A, B, C. auto.
Qed.

Lemma blueprints_length : 3 <= length blueprints <= 6.
Proof.
  unfold blueprints.
  destruct cfg_dog_enabled, cfg_leftTable_enabled, cfg_rightTable_enabled;
    simpl; lia.
Qed.

(** When [spawn] only sets the entity up, [initEntities] appends between
    three and six newly constructed entities to the collection, in the
    order player, dog, cat spawner, pen, left table, right table with the
    disabled ones left out; it numbers them consecutively from the counter,
    and none of them is deleted. *)
Theorem initEntities_builds_the_configured_entities :
  forall (w : World),
    let w' := fst (initEntities w) in
    3 <= length blueprints <= 6
    /\ hd_error blueprints = Some Player
    /\ entities w' = entities w ++ seq (allocated w) (length blueprints)
    /\ count w' = (count w + Z.of_nat (length blueprints))%Z
    /\ (forall k b, nth_error blueprints k = Some b ->
                    blueprint w' (allocated w + k) = Some b
                    /\ entityId w' (allocated w + k) = Some (count w + Z.of_nat k)%Z
                    /\ deleted w' (allocated w + k) = false).
Proof.
  intros w w'. subst w'. rewrite initEntities_as_loop.
  destruct (builds_spec blueprints w) as (He & Hc & _ & Hk & _).
  split; [exact blueprints_length|].
  split; [reflexivity|]. auto.
Qed.

(** When [spawn] only sets the entity up, the collection after a reset
    holds exactly the entities the reset has constructed, none of them
    deleted, whatever it held before; the identifier counter is not set
    back: the new entities are numbered from where the counter stood. *)
Theorem reset_replaces_the_whole_collection :
  forall (w : World),
    let cleared := fst (destroyAll w) in
    let w' := fst (reset w) in
    entities w' = seq (allocated cleared) (length blueprints)
    /\ NoDup (entities w')
    /\ noDeletedEntity w'
    /\ count w' = (count cleared + Z.of_nat (length blueprints))%Z
    /\ (forall k, k < length blueprints ->
                  entityId w' (allocated cleared + k)
                  = Some (count cleared + Z.of_nat k)%Z).
Proof.
  intros w cleared w'. subst w'. rewrite reset_world, initEntities_as_loop.
  fold cleared.
  destruct (builds_spec blueprints
              (set_state newGameState (set_entities [] cleared)))
    as (He & Hc & _ & Hk & _).
  cbv zeta in He, Hc, Hk.
  cbn [set_state set_entities entities count allocated app] in He, Hc, Hk.
  split; [exact He|]. split; [rewrite He; apply seq_NoDup|].
  split.
  - intros e Hin. rewrite He in Hin. apply in_seq in Hin.
    destruct (nth_error blueprints (e - allocated cleared)) as [b|] eqn:E.
    + destruct (Hk _ _ E) as (_ & _ & Hd).
      replace (allocated cleared + (e - allocated cleared)) with e in Hd by lia.
      exact Hd.
    + apply nth_error_None in E. lia.
  - split; [exact Hc|].
    intros k Hlt.
    destruct (nth_error blueprints k) as [b|] eqn:E.
    + destruct (Hk _ _ E) as (_ & Hi & _). exact Hi.
    + apply nth_error_None in E. lia.
Qed.

End BuildFacts.

(** ** The cost and the order of the collision pass *)

Lemma tests_app (t1 t2 : list Event) : tests (t1 ++ t2) = tests t1 + tests t2.
Proof. unfold tests. rewrite filter_app, length_app. reflexivity. Qed.

Lemma list_sum_ones {A : Type} (l : list A) :
  list_sum (map (fun _ => 1) l) = length l.
Proof. induction l as [|a l IH]; simpl; [reflexivity|]. rewrite IH. reflexivity. Qed.

Lemma for_tests_le {A : Type} (f : A -> nat) (l : list A) (body : A -> Pass) :
  (forall a w, tests (snd (body a w)) <= f a) ->
  forall w, tests (snd (for_ l body w)) <= list_sum (map f l).
Proof.
  intros Hbody. induction l as [|a l IH]; intros w.
  - apply Nat.le_refl.
  - rewrite for_cons. cbn [snd]. rewrite tests_app.
    change (list_sum (map f (a :: l))) with (f a + list_sum (map f l)).
    specialize (Hbody a w). specialize (IH (fst (body a w))). lia.
Qed.

Lemma for_tests_eq {A : Type} (P : World -> Prop) (f : A -> nat)
      (l : list A) (body : A -> Pass) :
  (forall a w, In a l -> P w ->
               P (fst (body a w)) /\ tests (snd (body a w)) = f a) ->
  forall w, P w ->
       P (fst (for_ l body w))
       /\ tests (snd (for_ l body w)) = list_sum (map f l).
Proof.
  induction l as [|a l IH]; intros Hbody w Hw.
  - simpl. auto.
  - rewrite for_cons. cbn [fst snd]. rewrite tests_app.
    change (list_sum (map f (a :: l))) with (f a + list_sum (map f l)).
    destruct (Hbody a w (or_introl eq_refl) Hw) as [H1 H2].
    destruct (IH (fun b v Hb => Hbody b v (or_intror Hb)) _ H1) as [H3 H4].
    split; [exact H3|lia].
Qed.

Lemma triangle_sum (n m : nat) :
  forall a, a + m = n ->
       2 * list_sum (map (fun i => n - S i) (seq a m)) = m * (m - 1).
Proof.
  induction m as [|m IH]; intros a H.
  - reflexivity.
  - cbn [seq map].
    change (list_sum (n - S a :: map (fun i => n - S i) (seq (S a) m)))
      with (n - S a + list_sum (map (fun i => n - S i) (seq (S a) m))).
    specialize (IH (S a) ltac:(lia)).
    replace (n - S a) with m by lia. nia.
Qed.

Lemma StronglySorted_append {A : Type} (R : A -> A -> Prop) (l1 l2 : list A) :
  StronglySorted R l1 -> StronglySorted R l2 ->
  (forall x y, In x l1 -> In y l2 -> R x y) ->
  StronglySorted R (l1 ++ l2).
Proof.
  induction 1 as [|a l1 Hl1 IH Ha]; intros H2 Hcross; simpl.
  - assumption.
  - constructor.
    + apply IH; [assumption|]. intros x y Hx Hy. apply Hcross; simpl; auto.
    + apply Forall_app. split; [assumption|].
      apply Forall_forall. intros y Hy. apply Hcross; simpl; auto.
Qed.

Lemma seq_StronglySorted (m : nat) :
  forall a, StronglySorted lt (seq a m).
Proof.
  induction m as [|m IH]; intros a; simpl; constructor.
  - apply IH.
  - apply Forall_forall. intros x Hx. apply in_seq in Hx. lia.
Qed.

(** A loop over an increasing list whose iterations make their calls in
    order, the calls of an earlier iteration before those of a later one,
    makes all its calls in order. *)
Lemma for_sorted {A : Type} (R : Event -> Event -> Prop)
      (Q : A -> Event -> Prop) (before : A -> A -> Prop)
      (l : list A) (body : A -> Pass) :
  StronglySorted before l ->
  (forall a w, In a l ->
               Forall (Q a) (snd (body a w))
               /\ StronglySorted R (snd (body a w))) ->
  (forall a a' x y, before a a' -> Q a x -> Q a' y -> R x y) ->
  forall w, StronglySorted R (snd (for_ l body w)).
Proof.
  intros Hl Hbody Hcross. induction Hl as [|a l Hl IH Ha]; intros w.
  - constructor.
  - rewrite for_cons. cbn [snd].
    destruct (Hbody a w (or_introl eq_refl)) as [HQ HS].
    apply StronglySorted_append.
    + exact HS.
    + apply IH. intros b v Hb. apply Hbody. right. exact Hb.
    + intros x y Hx Hy.
      pose proof (for_calls_of Q l body
                    (fun b v Hb => proj1 (Hbody b v (or_intror Hb)))
                    (fst (body a w))) as Hrest.
      rewrite Forall_forall in Hrest, HQ, Ha.
      destruct (Hrest y Hy) as (a' & Ha' & HQ').
      apply (Hcross a a' x y); auto.
Qed.

Section CollisionCost.

Context {Delta Hitbox : Type} {ext : Externals Delta Hitbox}.

Lemma collide_one_test (i j : nat) (e1 e2 : Entity) (w : World) :
  tests (snd (collide i j e1 e2 w)) = 1.
Proof. unfold collide. destruct (intersects _ _ w); reflexivity. Qed.

Lemma innerBody_tests_le (coll : list Entity) (i : nat) (e1 : Entity)
      (j : nat) (w : World) :
  tests (snd (innerBody coll i e1 j w)) <= 1.
Proof.
  unfold innerBody. destruct (nth_error coll j) as [e2|]; [|unfold tests; simpl; lia].
  destruct (deleted w e2); [unfold tests; simpl; lia|]. rewrite collide_one_test. lia.
Qed.

Lemma outerBody_tests_le (coll : list Entity) (i : nat) (w : World) :
  tests (snd (outerBody coll i w)) <= length coll - S i.
Proof.
  unfold outerBody. destruct (nth_error coll i) as [e1|]; [|unfold tests; simpl; lia].
  destruct (deleted w e1); [unfold tests; simpl; lia|].
  pose proof (for_tests_le (fun _ => 1) (seq (S i) (length coll - S i))
                (innerBody coll i e1)
                (fun j v => innerBody_tests_le coll i e1 j v) w) as H.
  rewrite list_sum_ones, length_seq in H. exact H.
Qed.

(** A pass over [n] entities calls [intersects] at most [n (n - 1) / 2]
    times, and exactly that often when the snapshot holds no deleted entity
    and no callback marks one. *)
Theorem collision_pass_is_quadratic :
  forall (w : World),
    let n := length (entities w) in
    2 * tests (snd (detectCollisions w)) <= n * (n - 1)
    /\ (callbacksDeleteNothing -> noDeletedEntity w ->
        2 * tests (snd (detectCollisions w)) = n * (n - 1)).
Proof.
  intros w n. split.
  - unfold detectCollisions.
    pose proof (for_tests_le (fun i => n - S i) (seq 0 n)
                  (outerBody (entities w))
                  (fun i v => outerBody_tests_le (entities w) i v) w) as H.
    pose proof (triangle_sum n n 0 eq_refl) as Hsum. fold n. lia.
  - intros Hfrozen Hclean.
    assert (Hall : forall v,
               (forall e, deleted v e = deleted w e) ->
               forall k e, nth_error (entities w) k = Some e ->
                           deleted v e = false).
    { intros v Hv k e Hk. rewrite Hv.
      apply Hclean. apply (nth_error_In _ _ Hk). }
    unfold detectCollisions. fold n.
    destruct (for_tests_eq (fun v => forall e, deleted v e = deleted w e)
                (fun i => n - S i) (seq 0 n) (outerBody (entities w)))
      with (w := w) as [_ Hcount]; [|reflexivity|].
    + intros i v Hi Hv. apply in_seq in Hi. unfold outerBody.
      destruct (nth_error (entities w) i) as [e1|] eqn:E1;
        [|apply nth_error_None in E1; fold n in E1; lia].
      rewrite (Hall v Hv i e1 E1).
      destruct (for_tests_eq (fun u => forall e, deleted u e = deleted w e)
                  (fun _ => 1) (seq (S i) (n - S i))
                  (innerBody (entities w) i e1))
        with (w := v) as [Hkeep Hcount]; [|exact Hv|].
      * intros j u Hj Hu. apply in_seq in Hj. unfold innerBody.
        destruct (nth_error (entities w) j) as [e2|] eqn:E2;
          [|apply nth_error_None in E2; fold n in E2; lia].
        rewrite (Hall u Hu j e2 E2), collide_one_test.
        split; [|reflexivity].
        unfold collide. destruct (intersects _ _ u); [|exact Hu].
        intros e. simpl. rewrite !Hfrozen. apply Hu.
      * fold n. split; [exact Hkeep|].
        rewrite Hcount, list_sum_ones, length_seq. reflexivity.
    + pose proof (triangle_sum n n 0 eq_refl) as Hsum. lia.
Qed.

Lemma visitedBefore_same (i j : nat) (x y : Event) :
  owner x = Some (i, j) -> owner y = Some (i, j) -> visitedBefore x y.
Proof. intros Hx Hy. unfold visitedBefore. rewrite Hx, Hy. right. auto. Qed.

Lemma innerBody_sorted (coll : list Entity) (i : nat) (e1 : Entity)
      (j : nat) (w : World) :
  i < j -> StronglySorted visitedBefore (snd (innerBody coll i e1 j w)).
Proof.
  intros Hij.
  pose proof (innerBody_owner coll i e1 j w Hij) as Hown.
  induction Hown as [|x l Hx Hl IH]; constructor.
  - exact IH.
  - revert Hl. apply Forall_impl. intros y Hy.
    apply (visitedBefore_same i j); assumption.
Qed.

(** The calls of a collision pass come pair by pair in the order of the two
    loops: a call for the pair (i, j) is never made after a call for a pair
    with a larger i, or with the same i and a larger j. *)
Theorem collision_calls_follow_the_loop_order :
  forall (w : World),
    StronglySorted visitedBefore (snd (detectCollisions w)).
Proof.
  intros w. unfold detectCollisions.
  apply (for_sorted visitedBefore
           (fun i ev => exists j, i < j /\ owner ev = Some (i, j)) lt).
  - apply seq_StronglySorted.
  - intros i v _. split.
    + generalize (outerBody_owner (entities w) i v).
      apply Forall_impl. intros ev (j & Hj & Hev). exists j. split; [lia|auto].
    + unfold outerBody.
      destruct (nth_error (entities w) i) as [e1|]; [|constructor].
      destruct (deleted v e1); [constructor|].
      apply (for_sorted visitedBefore
               (fun j ev => i < j /\ owner ev = Some (i, j)) lt).
      * apply seq_StronglySorted.
      * intros j u Hj. apply in_seq in Hj.
        assert (Hij : i < j) by lia. split.
        -- generalize (innerBody_owner (entities w) i e1 j u Hij).
           apply Forall_impl. auto.
        -- apply innerBody_sorted. exact Hij.
      * intros j j' x y Hlt [_ Hx] [_ Hy].
        unfold visitedBefore. rewrite Hx, Hy. right. split; [reflexivity|lia].
  - intros i i' x y Hlt (j & _ & Hx) (j' & _ & Hy).
    unfold visitedBefore. rewrite Hx, Hy. left. exact Hlt.
Qed.

End CollisionCost.

(** ** The further properties on the small worlds *)

Lemma quiet_listenersArePrivate : listenersArePrivate (ext := quiet).
Proof. split; intros; reflexivity. Qed.

Lemma quiet_spawnKeepsState : spawnKeepsState (ext := quiet).
Proof. intros e w. reflexivity. Qed.

Lemma quiet_spawnIsLocal : spawnIsLocal (ext := quiet).
Proof. intros e w. simpl. auto 10. Qed.

Lemma space_keyup_spends_every_listener_witness :
  let w := fst (run (ext := quiet) [Tick 16%Z; Tick 16%Z; Tick 16%Z] lostGame) in
  resets (snd (keyup (ext := quiet) "Space" w)) = unspent (listeners w)
  /\ unspent (listeners w) = 3.
Proof.
  intros w. split; [|vm_compute; reflexivity].
  exact (proj1 (space_keyup_spends_every_listener (ext := quiet)
                  quiet_listenersArePrivate w)).
Defined.

Lemma space_keyup_restarts_the_game_witness :
  let w := fst (run (ext := quiet) [Tick 16%Z] lostGame) in
  isGameOver w = true
  /\ isGameOver (fst (keyup (ext := quiet) "Space" w)) = false.
Proof.
  intros w. split; [vm_compute; reflexivity|].
  apply (space_keyup_restarts_the_game (ext := quiet)
           quiet_listenersArePrivate quiet_spawnKeepsState w).
  vm_compute. left. reflexivity.
Defined.

Lemma initEntities_builds_the_configured_entities_witness :
  entities (fst (initEntities (ext := quiet) newGame))
  = entities newGame ++ seq (allocated newGame) (length (blueprints (ext := quiet)))
  /\ length (blueprints (ext := quiet)) = 6.
Proof.
  split; [|reflexivity].
  exact (proj1 (proj2 (proj2 (initEntities_builds_the_configured_entities
                                (ext := quiet) quiet_spawnIsLocal newGame)))).
Defined.

Lemma reset_replaces_the_whole_collection_witness :
  entities (fst (reset (ext := quiet) lostGame))
  = seq (allocated (fst (destroyAll (ext := quiet) lostGame)))
        (length (blueprints (ext := quiet)))
  /\ allocated (fst (destroyAll (ext := quiet) lostGame)) = 6.
Proof.
  split; [|vm_compute; reflexivity].
  exact (proj1 (reset_replaces_the_whole_collection (ext := quiet)
                  quiet_spawnIsLocal lostGame)).
Defined.
